(** * TimeLogHistoryWorker: a shallow embedding of the time-log history engine

    The development follows [src/lib/TimeLogHistoryWorker.cpp]:

    - the two SQLite tables [timelog] and [removed] and the triggers that
      [setupTriggers] installs, as functions on a database value;
    - the worker object (database, [m_size], [m_categories],
      [m_undoStack]) as a state threaded through a state-and-writer monad
      whose output is the list of emitted Qt signals;
    - the member functions of the worker, one definition per function,
      under the names of the source.

    Conventions.  [Q_ASSERT]s are compiled out (release build), so the
    functions are total on every input.  Only the failures that the data
    decides are modelled (constraint violations and a malformed UPDATE);
    an I/O failure of the storage layer takes the same [!query.exec()]
    branches.  The clock [QDateTime::currentMSecsSinceEpoch()] is read
    once per command and passed as [now]. *)

From stdpp Require Import base option list sorting gmap strings.
From Stdlib Require Import ZArith Lia.

#[local] Open Scope Z_scope.
#[local] Set Warnings "-clear-no-such-hyp".

(** ** Qt value types *)

(** A [QUuid] is its 128-bit value; the null uuid is 0. *)
Abbreviation QUuid := N (only parsing).

(** A [QDateTime] is [None] when invalid, and otherwise the integer the
    code extracts from it: seconds since the epoch for start times,
    milliseconds for modification times. *)
Abbreviation QDateTime := (option Z) (only parsing).

Definition uint_max : Z := 4294967295.

(** [QDateTime::toTime_t]: [uint(-1)] for an invalid or unrepresentable
    date. *)
Definition toTime_t (d : QDateTime) : Z :=
  match d with
  | Some s => if bool_decide (0 ≤ s < uint_max) then s else uint_max
  | None => uint_max
  end.

Definition fromTime_t (s : Z) : QDateTime := Some s.

(** [QVariant::toUInt] and [QVariant::toInt] of a 64-bit column value. *)
Definition toUInt (z : Z) : Z := z mod 2 ^ 32.
Definition toInt (z : Z) : Z := (z + 2 ^ 31) mod 2 ^ 32 - 2 ^ 31.

(** [data.mTime.isValid() ? data.mTime.toMSecsSinceEpoch()
                          : QDateTime::currentMSecsSinceEpoch()]. *)
Definition mtime_or_now (now : Z) (m : QDateTime) : Z := from_option id now m.

(** The milliseconds a [QDateTime] comparison looks at; a
    default-constructed date holds 0. *)
Definition msecs (d : QDateTime) : Z := from_option id 0 d.

(** ** Field masks ([TimeLogHistory::Fields]) *)

Module TimeLogHistory.
Definition NoFields : Z := 0.
Definition StartTime : Z := 1.
Definition DurationTime : Z := 2.
Definition Category : Z := 4.
Definition Comment : Z := 8.
Definition PrecedingStart : Z := 16.
Definition AllFieldsMask : Z := Z.lor StartTime (Z.lor Category Comment).
End TimeLogHistory.

(** [fields & flag] as a condition. *)
Definition has_flag (fields flag : Z) : bool := negb (Z.land fields flag =? 0).

(** ** Entries *)

Record TimeLogEntry := mkEntry {
  uuid : QUuid;
  startTime : QDateTime;
  category : string;
  comment : string;
  durationTime : Z;
  precedingStart : QDateTime
}.

(** [TimeLogSyncData] derives from [TimeLogEntry] and adds [mTime]. *)
Record TimeLogSyncData := mkSync {
  entry :> TimeLogEntry;
  mTime : QDateTime
}.

#[global] Instance TimeLogEntry_eq_dec : EqDecision TimeLogEntry.
Proof. solve_decision. Defined.
#[global] Instance TimeLogSyncData_eq_dec : EqDecision TimeLogSyncData.
Proof. solve_decision. Defined.

(** Modelled from the spec: the default constructor of [TimeLogEntry]
    (TimeLogEntry.cpp is not part of the sources); the spec calls its
    result the invalid (empty) entry. *)
Definition TimeLogEntry_default : TimeLogEntry :=
  mkEntry 0%N None "" "" 0 None.

(** Modelled from the spec: [TimeLogEntry::isValid] (TimeLogEntry.cpp is
    not part of the sources).  An entry carries a uuid, a start and a
    non-empty category; the record read back for a tombstone has an empty
    category and is not valid. *)
Definition isValid (e : TimeLogEntry) : bool :=
  negb (uuid e =? 0)%N && bool_decide (is_Some (startTime e))
  && negb (String.eqb (category e) "").

(** The converting constructor used where a [TimeLogEntry] is passed for a
    [const TimeLogSyncData &]: no modification time. *)
Definition TimeLogSyncData_of (e : TimeLogEntry) : TimeLogSyncData :=
  mkSync e None.

Definition TimeLogSyncData_default : TimeLogSyncData :=
  TimeLogSyncData_of TimeLogEntry_default.

(** ** The database *)

(** A row of [timelog (uuid BLOB UNIQUE, start INTEGER PRIMARY KEY,
    category TEXT, comment TEXT, duration INTEGER, mtime INTEGER)];
    [duration] is [None] while NULL. *)
Record Row := mkRow {
  r_uuid : QUuid;
  r_start : Z;
  r_category : string;
  r_comment : string;
  r_duration : option Z;
  r_mtime : Z
}.

#[global] Instance Row_eq_dec : EqDecision Row.
Proof. solve_decision. Defined.

(** [removed (uuid BLOB UNIQUE, mtime INTEGER)] is a finite map from uuid
    to mtime; [timelog] is the list of its rows. *)
Record Db := mkDb {
  timelog : list Row;
  removed : gmap N Z
}.

Definition empty_db : Db := mkDb [] ∅.

Definition starts (t : list Row) : list Z := r_start <$> t.
Definition uuids (t : list Row) : list N := r_uuid <$> t.

Definition set_duration (d : option Z) (r : Row) : Row :=
  mkRow (r_uuid r) (r_start r) (r_category r) (r_comment r) d (r_mtime r).

(** *** Scalar subqueries *)

Definition list_max (l : list Z) : option Z :=
  foldr (λ s acc, Some (from_option (Z.max s) s acc)) None l.
Definition list_min (l : list Z) : option Z :=
  foldr (λ s acc, Some (from_option (Z.min s) s acc)) None l.

(** [SELECT start FROM timelog WHERE start < x ORDER BY start DESC LIMIT 1] *)
Definition prev_start (t : list Row) (x : Z) : option Z :=
  list_max (filter (λ s, s < x) (starts t)).

(** [SELECT start FROM timelog WHERE start > x ORDER BY start ASC LIMIT 1] *)
Definition next_start (t : list Row) (x : Z) : option Z :=
  list_min (filter (λ s, x < s) (starts t)).

(** [IFNULL(e, d)] *)
Definition ifnull (e : option Z) (d : Z) : Z := from_option id d e.

(** [NULLIF(a, b)]: NULL when [a = b], else [a]. *)
Definition nullif (a b : option Z) : option Z :=
  match a, b with
  | Some x, Some y => if bool_decide (x = y) then None else Some x
  | _, _ => a
  end.

(** *** Triggers on [timelog] *)

(** [check_update_timelog BEFORE UPDATE]: [true] is [RAISE(IGNORE)], the
    row is left as it is. *)
Definition check_update_timelog (old new : Row) : bool :=
  bool_decide (r_mtime new < r_mtime old).

(** [UPDATE timelog SET ... WHERE cond], for statements that do not
    assign [start]: every selected row passes [check_update_timelog]. *)
Definition sql_update (cond : Row → bool) (set : Row → Row)
    (t : list Row) : list Row :=
  (λ r, if cond r
        then if check_update_timelog r (set r) then r else set r
        else r) <$> t.

(** [check_insert_timelog BEFORE INSERT]: [true] is [RAISE(IGNORE)]. *)
Definition check_insert_timelog (new : Row) (d : Db) : bool :=
  match removed d !! r_uuid new with
  | Some m => bool_decide (r_mtime new < m)
  | None => false
  end.

(** [insert_timelog AFTER INSERT], run on the database that already
    holds [new]. *)
Definition insert_timelog (new : Row) (d : Db) : Db :=
  let t0 := timelog d in
  let t1 :=
    sql_update (λ r, bool_decide (Some (r_start r) = prev_start t0 (r_start new)))
      (λ r, set_duration (Some (r_start new - r_start r)) r) t0 in
  let t2 :=
    sql_update (λ r, bool_decide (r_start r = r_start new))
      (set_duration
         (Some (ifnull ((λ s, s - r_start new) <$> next_start t1 (r_start new)) (-1))))
      t1 in
  mkDb t2 (delete (r_uuid new) (removed d)).

(** [delete_timelog AFTER DELETE], run on the table without [old]. *)
Definition delete_timelog (old : Row) (t : list Row) : list Row :=
  sql_update (λ r, bool_decide (Some (r_start r) = prev_start t (r_start old)))
    (λ r, set_duration
            (Some (ifnull ((λ s, s - r_start r) <$> next_start t (r_start old)) (-1))) r)
    t.

(** [update_timelog AFTER UPDATE OF start], run on the table that already
    holds [new] in the place of [old]. *)
Definition update_timelog (old new : Row) (t : list Row) : list Row :=
  let t1 :=
    sql_update (λ r, bool_decide (Some (r_start r) = prev_start t (r_start new)))
      (λ r, set_duration (Some (r_start new - r_start r)) r) t in
  let t2 :=
    sql_update
      (λ r, bool_decide (Some (r_start r) =
                         nullif (prev_start t1 (r_start old))
                                (prev_start t1 (r_start new))))
      (λ r, set_duration
              (Some (ifnull ((λ s, s - r_start r) <$> next_start t1 (r_start old)) (-1))) r)
      t1 in
  sql_update (λ r, bool_decide (r_start r = r_start new))
    (set_duration
       (Some (ifnull ((λ s, s - r_start new) <$> next_start t2 (r_start new)) (-1))))
    t2.

(** *** Statements *)

(** [INSERT INTO timelog (uuid, start, category, comment, mtime)
    VALUES (?,?,?,?,?)].  [None] is a constraint violation (the primary
    key [start] or the unique [uuid]); otherwise the new database and
    [numRowsAffected()].  The BEFORE trigger runs before the constraints
    are checked. *)
Definition insert_into_timelog (u : N) (start : Z) (cat com : string)
    (mtime : Z) (d : Db) : option (Db * Z) :=
  let new := mkRow u start cat com None mtime in
  if check_insert_timelog new d then Some (d, 0)
  else if bool_decide (start ∈ starts (timelog d) ∨ u ∈ uuids (timelog d))
  then None
  else Some (insert_timelog new (mkDb (timelog d ++ [new]) (removed d)), 1).

(** [DELETE FROM timelog WHERE uuid = u]; [uuid] is unique, so at most one
    row goes, and [delete_timelog] runs for it. *)
Definition delete_from_timelog (u : N) (t : list Row) : list Row :=
  match find (λ r, bool_decide (r_uuid r = u)) t with
  | Some old => delete_timelog old (filter (λ r, r_uuid r ≠ u) t)
  | None => t
  end.

(** [check_insert_removed BEFORE INSERT]: [true] is [RAISE(IGNORE)]. *)
Definition check_insert_removed (u : N) (mtime : Z) (d : Db) : bool :=
  match removed d !! u with
  | Some m => bool_decide (mtime < m)
  | None => false
  end.

(** [INSERT OR REPLACE INTO removed (uuid, mtime) VALUES (?,?)], with
    [insert_removed AFTER INSERT] deleting the live row.  It cannot fail;
    the second component is [numRowsAffected()]. *)
Definition replace_into_removed (u : N) (mtime : Z) (d : Db) : Db * Z :=
  if check_insert_removed u mtime d then (d, 0)
  else (mkDb (delete_from_timelog u (timelog d)) (<[u := mtime]> (removed d)), 1).

(** [UPDATE timelog SET [start=?,] [category=?,] [comment=?,] mtime=?
    WHERE uuid=?] for a non-empty choice of the three columns.  [None] is
    a primary-key violation. *)
Definition update_timelog_where_uuid (fields : Z) (data : TimeLogEntry)
    (mtime : Z) (t : list Row) : option (list Row) :=
  match find (λ r, bool_decide (r_uuid r = uuid data)) t with
  | None => Some t
  | Some old =>
    let new :=
      mkRow (r_uuid old)
        (if has_flag fields TimeLogHistory.StartTime
         then toTime_t (startTime data) else r_start old)
        (if has_flag fields TimeLogHistory.Category
         then category data else r_category old)
        (if has_flag fields TimeLogHistory.Comment
         then comment data else r_comment old)
        (r_duration old) mtime in
    if check_update_timelog old new then Some t
    else if bool_decide (r_start new ≠ r_start old ∧ r_start new ∈ starts t)
    then None
    else
      let t1 := (λ r, if bool_decide (r_uuid r = uuid data) then new else r) <$> t in
      Some (if has_flag fields TimeLogHistory.StartTime
            then update_timelog old new t1 else t1)
  end.

(** [UPDATE timelog SET category=?, mtime=? WHERE category=?] *)
Definition update_timelog_where_category (oldName newName : string)
    (mtime : Z) (t : list Row) : list Row :=
  sql_update (λ r, bool_decide (r_category r = oldName))
    (λ r, mkRow (r_uuid r) (r_start r) newName (r_comment r) (r_duration r) mtime)
    t.

(** *** Queries *)

Definition start_le (r1 r2 : Row) : Prop := r_start r1 ≤ r_start r2.
Definition start_ge (r1 r2 : Row) : Prop := r_start r2 ≤ r_start r1.

#[global] Instance start_le_dec : RelDecision start_le.
Proof. intros r1 r2. unfold start_le. apply _. Defined.
#[global] Instance start_ge_dec : RelDecision start_ge.
Proof. intros r1 r2. unfold start_ge. apply _. Defined.

(** [ORDER BY start ASC] and [ORDER BY start DESC] *)
Definition order_by_start_asc : list Row → list Row := merge_sort start_le.
Definition order_by_start_desc : list Row → list Row := merge_sort start_ge.

(** The columns of [selectFields] read by [getHistory]: the row and the
    start of the row before it ([ifnull(..., 0)]). *)
Definition select_fields (t : list Row) (r : Row) : TimeLogEntry :=
  mkEntry (r_uuid r) (fromTime_t (toUInt (r_start r)))
    (r_category r) (r_comment r)
    (toInt (ifnull (r_duration r) 0))
    (fromTime_t (toUInt (ifnull (prev_start t (r_start r)) 0))).

(** [... WHERE start <= x ORDER BY start DESC LIMIT n] and its three
    companions. *)
Definition rows_le_desc (t : list Row) (x : Z) (n : nat) : list Row :=
  take n (order_by_start_desc (filter (λ r, r_start r ≤ x) t)).
Definition rows_lt_desc (t : list Row) (x : Z) (n : nat) : list Row :=
  take n (order_by_start_desc (filter (λ r, r_start r < x) t)).
Definition rows_gt_asc (t : list Row) (x : Z) (n : nat) : list Row :=
  take n (order_by_start_asc (filter (λ r, x < r_start r) t)).

(** [UNION] of row sets followed by [ORDER BY start ASC]. *)
Definition union_order_asc (parts : list (list Row)) : list Row :=
  order_by_start_asc (remove_dups (concat parts)).

(** The record [getSyncData] reads for a live row and for a tombstone
    (NULL start, category and comment). *)
Definition sync_of_row (r : Row) : TimeLogSyncData :=
  mkSync (mkEntry (r_uuid r) (fromTime_t (toUInt (r_start r)))
            (r_category r) (r_comment r) 0 None)
         (Some (r_mtime r)).
Definition sync_of_tombstone (u : N) (m : Z) : TimeLogSyncData :=
  mkSync (mkEntry u (fromTime_t 0) "" "" 0 None) (Some m).

Definition mtime_ge (a b : TimeLogSyncData) : Prop :=
  msecs (mTime b) ≤ msecs (mTime a).

#[global] Instance mtime_ge_dec : RelDecision mtime_ge.
Proof. intros a b. unfold mtime_ge. apply _. Defined.

(** [ORDER BY mtime DESC] *)
Definition order_by_mtime_desc : list TimeLogSyncData → list TimeLogSyncData :=
  merge_sort mtime_ge.

(** ** Signals *)

(** The text of an [error] signal: the one literal of the source, or the
    text of the storage layer's last error. *)
Inductive ErrorText := EmptyCategoryName | SqlErrorText.

Inductive Event :=
| error (message : ErrorText)
| dataInserted (data : TimeLogEntry)
| dataImported (data : list TimeLogEntry)
| dataRemoved (data : TimeLogEntry)
| dataUpdated (data : list TimeLogEntry) (fields : list Z)
| dataOutdated
| dataSynced (updatedData removedData : list TimeLogSyncData)
| sizeChanged (size : Z)
| categoriesChanged (categories : gset string)
| undoCountChanged (undoCount : Z)
| historyRequestCompleted (data : list TimeLogEntry) (id : Z)
| syncStatsAvailable (removedOld removedNew insertedOld insertedNew
                      updatedOld updatedNew : list TimeLogSyncData).

(** ** The worker object *)

Inductive UndoType := UndoInsert | UndoRemove | UndoEdit | UndoEditCategory.

Record Undo := mkUndo {
  undo_type : UndoType;
  undo_data : list TimeLogEntry;
  undo_fields : list Z
}.

Record Worker := mkWorker {
  db : Db;
  m_size : Z;
  m_categories : gset string;
  m_undoStack : list Undo
}.

(** The worker after [init] on a fresh database file. *)
Definition initial : Worker := mkWorker empty_db 0 ∅ [].

Definition set_db (d : Db) (w : Worker) : Worker :=
  mkWorker d (m_size w) (m_categories w) (m_undoStack w).
Definition set_m_size (s : Z) (w : Worker) : Worker :=
  mkWorker (db w) s (m_categories w) (m_undoStack w).
Definition set_m_categories (c : gset string) (w : Worker) : Worker :=
  mkWorker (db w) (m_size w) c (m_undoStack w).
Definition set_m_undoStack (u : list Undo) (w : Worker) : Worker :=
  mkWorker (db w) (m_size w) (m_categories w) u.

(** A member function is a state transformer that also yields the signals
    it emits, in order. *)
Definition M (A : Type) : Type := Worker → A * Worker * list Event.

#[global] Instance M_ret : MRet M := λ A a w, (a, w, []).
#[global] Instance M_bind : MBind M := λ A B f m w,
  let '(a, w1, e1) := m w in
  let '(b, w2, e2) := f a w1 in
  (b, w2, e1 ++ e2).

Definition emit (e : Event) : M unit := λ w, (tt, w, [e]).
Definition gets {A} (f : Worker → A) : M A := λ w, (f w, w, []).
Definition modify (f : Worker → Worker) : M unit := λ w, (tt, f w, []).

(** [foreach (x, l) body], and the same loop leaving at the first [false]. *)
Fixpoint for_each {A} (f : A → M unit) (l : list A) : M unit :=
  match l with
  | [] => mret tt
  | x :: l' => f x ;; for_each f l'
  end.

Fixpoint all_ok {A} (f : A → M bool) (l : list A) : M bool :=
  match l with
  | [] => mret true
  | x :: l' => ok ← f x; if ok : bool then all_ok f l' else mret false
  end.

(** [db.transaction(); ...; db.commit()] around a body that reports
    success: on [false] the body has called [db.rollback()], which puts
    the database back; the members of the worker keep their values. *)
Definition transaction (body : M bool) : M bool := λ w,
  let '(ok, w', e) := body w in
  if ok then (true, w', e) else (false, set_db (db w) w', e).

Definition state_of {A} (r : A * Worker * list Event) : Worker := r.1.2.
Definition events_of {A} (r : A * Worker * list Event) : list Event := r.2.
Definition value_of {A} (r : A * Worker * list Event) : A := r.1.1.

Module Worker.

Definition maxUndoSize : Z := 10.

(** Modelled from the spec: the default arguments of [updateCategories]
  and of [notifyUpdates], declared in TimeLogHistoryWorker.h, which is
  not part of the sources.  The spec has the category set rebuilt
  wholesale, so the window spans every start the table can hold, and it
  has neighbour notifications report the duration and the preceding
  start. *)
Definition updateCategories_begin : QDateTime := Some 0.
Definition updateCategories_end : QDateTime := None.
Definition notifyUpdates_fields : Z :=
Z.lor TimeLogHistory.DurationTime TimeLogHistory.PrecedingStart.

(** *** Scalar state *)

Definition setSize (size : Z) : M unit :=
cur ← gets m_size;
if bool_decide (cur = size) then mret tt
else modify (set_m_size size) ;; emit (sizeChanged size).

Definition removeFromCategories (category : string) : M unit :=
cats ← gets m_categories;
if bool_decide (category ∈ cats) then
  modify (set_m_categories (cats ∖ {[category]})) ;;
  emit (categoriesChanged (cats ∖ {[category]}))
else mret tt.

Definition addToCategories (category : string) : M unit :=
cats ← gets m_categories;
if bool_decide (category ∈ cats) then mret tt
else
  modify (set_m_categories ({[category]} ∪ cats)) ;;
  emit (categoriesChanged ({[category]} ∪ cats)).

Definition processFail : M unit :=
modify (set_m_undoStack []) ;;
emit (undoCountChanged 0) ;;
emit dataOutdated.

Definition pushUndo (undo : Undo) : M unit :=
modify (λ w, set_m_undoStack (m_undoStack w ++ [undo]) w) ;;
st ← gets m_undoStack;
if bool_decide (Z.of_nat (length st) > maxUndoSize)
then modify (set_m_undoStack (tail st))
else emit (undoCountChanged (Z.of_nat (length st))).

(** *** Reading *)

(** [getHistory] over [... WHERE uuid=?]: the first row, or the default
  entry. *)
Definition getEntry (d : Db) (u : N) : TimeLogEntry :=
from_option (select_fields (timelog d)) TimeLogEntry_default
  (find (λ r, bool_decide (r_uuid r = u)) (timelog d)).

(** [getHistory] over [... WHERE category=?]: a scan of the table, which
  SQLite keeps in the order of its integer primary key. *)
Definition getEntries (d : Db) (category : string) : list TimeLogEntry :=
select_fields (timelog d) <$>
  order_by_start_asc (filter (λ r, r_category r = category) (timelog d)).

(** The live row and the tombstone of a uuid, [ORDER BY mtime DESC
  LIMIT 1]. *)
Definition getSyncAffected (d : Db) (u : N) : list TimeLogSyncData :=
take 1 (order_by_mtime_desc
  ((sync_of_row <$> filter (λ r, r_uuid r = u) (timelog d)) ++
   from_option (λ m, [sync_of_tombstone u m]) [] (removed d !! u))).

(** *** Notifications *)

Definition notifyUpdates (rows : Db → list Row) (fields : Z) : M unit :=
d ← gets db;
let updatedData := select_fields (timelog d) <$> rows d in
if bool_decide (updatedData = []) then mret tt
else emit (dataUpdated updatedData (replicate (length updatedData) fields)).

Definition notifyInsertUpdates (data : TimeLogEntry) : M unit :=
let newStart := toTime_t (startTime data) in
notifyUpdates
  (λ d, union_order_asc [rows_le_desc (timelog d) newStart 2;
                         rows_gt_asc (timelog d) newStart 1])
  notifyUpdates_fields.

Definition notifyRemoveUpdates (data : TimeLogEntry) : M unit :=
let oldStart := toTime_t (startTime data) in
notifyUpdates
  (λ d, union_order_asc [rows_lt_desc (timelog d) oldStart 1;
                         rows_gt_asc (timelog d) oldStart 1])
  notifyUpdates_fields.

Definition notifyEditUpdates (data : TimeLogEntry) (fields : Z)
  (oldStart : QDateTime) : M unit :=
if has_flag fields TimeLogHistory.StartTime then
  let newStart := toTime_t (startTime data) in
  let oldStart := toTime_t oldStart in
  notifyUpdates
    (λ d, union_order_asc [rows_le_desc (timelog d) newStart 2;
                           rows_gt_asc (timelog d) newStart 1;
                           rows_lt_desc (timelog d) oldStart 1;
                           rows_gt_asc (timelog d) oldStart 1])
    (Z.lor fields
       (Z.lor TimeLogHistory.DurationTime TimeLogHistory.PrecedingStart))
else
  notifyUpdates
    (λ d, order_by_start_asc
            (filter (λ r, r_start r = toTime_t (startTime data)) (timelog d)))
    fields.

(** *** Writing *)

Definition updateCategories (begin end_ : QDateTime) : M bool :=
d ← gets db;
let result : gset string :=
  list_to_set (r_category <$>
    filter (λ r, toTime_t begin ≤ r_start r ≤ toTime_t end_) (timelog d)) in
modify (set_m_categories result) ;;
emit (categoriesChanged result) ;;
mret true.

Definition insertData (now : Z) (data : TimeLogSyncData) : M bool :=
d ← gets db;
match insert_into_timelog (uuid data) (toTime_t (startTime data))
        (category data) (comment data) (mtime_or_now now (mTime data)) d with
| None => emit (error SqlErrorText) ;; mret false
| Some (d', numRowsAffected) =>
  modify (set_db d') ;;
  size ← gets m_size;
  setSize (size + numRowsAffected) ;;
  addToCategories (category data) ;;
  mret true
end.

(** [insertData(const QVector<TimeLogEntry> &)] *)
Definition insertData_vector (now : Z) (data : list TimeLogEntry) : M bool :=
transaction (all_ok (λ e, insertData now (TimeLogSyncData_of e)) data).

Definition removeData (now : Z) (data : TimeLogSyncData) : M bool :=
d ← gets db;
let '(d', numRowsAffected) :=
  replace_into_removed (uuid data) (mtime_or_now now (mTime data)) d in
modify (set_db d') ;;
size ← gets m_size;
setSize (size - numRowsAffected) ;;
mret true.

Definition editData (now : Z) (data : TimeLogSyncData) (fields : Z) : M bool :=
if negb (has_flag fields TimeLogHistory.StartTime
         || has_flag fields TimeLogHistory.Category
         || has_flag fields TimeLogHistory.Comment)
then (* "UPDATE timelog SET , mtime=?" does not prepare *)
  emit (error SqlErrorText) ;; mret false
else
  d ← gets db;
  match update_timelog_where_uuid fields data
          (mtime_or_now now (mTime data)) (timelog d) with
  | None => emit (error SqlErrorText) ;; mret false
  | Some t' =>
    modify (set_db (mkDb t' (removed d))) ;;
    (if has_flag fields TimeLogHistory.Category
     then addToCategories (category data) else mret tt) ;;
    mret true
  end.

Definition editCategoryData (now : Z) (oldName newName : string) : M bool :=
d ← gets db;
let hasOldCategoryItems :=
  bool_decide (0 < length (filter (λ r, r_category r = oldName) (timelog d)))%nat in
if negb hasOldCategoryItems then
  removeFromCategories oldName ;; mret false
else
  modify (set_db (mkDb (update_timelog_where_category oldName newName now
                          (timelog d))
                       (removed d))) ;;
  ok ← updateCategories updateCategories_begin updateCategories_end;
  if ok : bool then mret true else mret false.

(** The field-wise difference that [syncData] reports for an update. *)
Definition diff_fields (newField oldField : TimeLogSyncData) : Z :=
let f0 := TimeLogHistory.NoFields in
let f1 := if bool_decide (startTime newField ≠ startTime oldField)
          then Z.lor f0 TimeLogHistory.StartTime else f0 in
let f2 := if bool_decide (category newField ≠ category oldField)
          then Z.lor f1 TimeLogHistory.Category else f1 in
if bool_decide (comment newField ≠ comment oldField)
then Z.lor f2 TimeLogHistory.Comment else f2.

Definition syncData (now : Z)
  (removed inserted updatedNew updatedOld : list TimeLogSyncData) : M bool :=
ok ← transaction (
  ok ← all_ok (removeData now) removed;
  if ok : bool then
    ok ← all_ok (insertData now) inserted;
    if ok : bool then
      all_ok (λ e, editData now e TimeLogHistory.AllFieldsMask) updatedNew
    else mret false
  else mret false);
if ok : bool then
  for_each (λ e : TimeLogSyncData,
              if isValid e then emit (dataRemoved e) else mret tt) removed ;;
  for_each (λ e : TimeLogSyncData,
              if isValid e then notifyRemoveUpdates e else mret tt) removed ;;
  for_each (λ e : TimeLogSyncData, emit (dataInserted e)) inserted ;;
  for_each (λ e : TimeLogSyncData, notifyInsertUpdates e) inserted ;;
  for_each (λ p : TimeLogSyncData * TimeLogSyncData,
              notifyEditUpdates p.1 (diff_fields p.1 p.2) (startTime p.2))
    (zip updatedNew updatedOld) ;;
  mret true
else mret false.

(** *** Single-entry operations *)

Definition insertEntry (now : Z) (data : TimeLogEntry) : M unit :=
ok ← insertData now (TimeLogSyncData_of data);
if ok : bool then emit (dataInserted data) ;; notifyInsertUpdates data
else processFail.

Definition removeEntry (now : Z) (data : TimeLogEntry) : M unit :=
ok ← removeData now (TimeLogSyncData_of data);
if ok : bool then emit (dataRemoved data) ;; notifyRemoveUpdates data
else processFail.

Definition editEntry (now : Z) (data : TimeLogEntry) (fields : Z) : M bool :=
if bool_decide (fields = TimeLogHistory.NoFields) then mret false
else
  d ← gets db;
  let oldData := getEntry d (uuid data) in
  if has_flag fields TimeLogHistory.StartTime && negb (isValid oldData) then
    processFail ;; mret false
  else
    let oldStart : QDateTime :=
      if has_flag fields TimeLogHistory.StartTime
      then startTime oldData else None in
    ok ← editData now (TimeLogSyncData_of data) fields;
    if ok : bool then notifyEditUpdates data fields oldStart ;; mret true
    else processFail ;; mret false.

Fixpoint editEntries (now : Z) (data : list TimeLogEntry) (fields : list Z)
  : M unit :=
match data, fields with
| e :: data', f :: fields' =>
  ok ← editEntry now e f;
  if ok : bool then editEntries now data' fields' else mret tt
| _, _ => mret tt
end.

(** *** The command interface *)

Definition insert (now : Z) (data : TimeLogEntry) : M unit :=
pushUndo (mkUndo UndoInsert [data] []) ;;
insertEntry now data.

Definition import (now : Z) (data : list TimeLogEntry) : M unit :=
ok ← insertData_vector now data;
if ok : bool then emit (dataImported data) else processFail.

Definition remove (now : Z) (data : TimeLogEntry) : M unit :=
d ← gets db;
let entry := getEntry d (uuid data) in
pushUndo (mkUndo UndoRemove [entry] []) ;;
removeEntry now data.

Definition edit (now : Z) (data : TimeLogEntry) (fields : Z) : M unit :=
d ← gets db;
let entry := getEntry d (uuid data) in
pushUndo (mkUndo UndoEdit [entry] [fields]) ;;
editEntry now data fields ;;
mret tt.

Definition editCategory (now : Z) (oldName newName : string) : M unit :=
if bool_decide (newName = "") then emit (error EmptyCategoryName)
else if bool_decide (oldName = newName) then mret tt
else
  d ← gets db;
  let entries := getEntries d oldName in
  pushUndo (mkUndo UndoEditCategory entries
              (replicate (length entries) TimeLogHistory.Category)) ;;
  ok ← editCategoryData now oldName newName;
  if ok : bool then emit dataOutdated else processFail.

(** The classification passes of [sync]: the [...New] and [...Old]
  vectors, built in the order of the input. *)
Fixpoint classify_removed (d : Db) (removedData : list TimeLogSyncData)
  : list TimeLogSyncData * list TimeLogSyncData :=
match removedData with
| [] => ([], [])
| entry :: rest =>
  let '(removedNew, removedOld) := classify_removed d rest in
  match getSyncAffected d (uuid entry) with
  | first :: _ =>
    if bool_decide (msecs (mTime entry) ≤ msecs (mTime first))
    then (removedNew, removedOld)
    else (entry :: removedNew, first :: removedOld)
  | [] => (entry :: removedNew, TimeLogSyncData_default :: removedOld)
  end
end.

Record Classified := mkClassified {
insertedNew : list TimeLogSyncData;
insertedOld : list TimeLogSyncData;
updatedNew : list TimeLogSyncData;
updatedOld : list TimeLogSyncData
}.

Fixpoint classify_updated (d : Db) (updatedData : list TimeLogSyncData)
  : Classified :=
match updatedData with
| [] => mkClassified [] [] [] []
| entry :: rest =>
  let c := classify_updated d rest in
  match getSyncAffected d (uuid entry) with
  | first :: _ =>
    if bool_decide (msecs (mTime entry) ≤ msecs (mTime first)) then c
    else if negb (isValid first) then
      mkClassified (entry :: insertedNew c) (first :: insertedOld c)
                   (updatedNew c) (updatedOld c)
    else
      mkClassified (insertedNew c) (insertedOld c)
                   (entry :: updatedNew c) (first :: updatedOld c)
  | [] =>
    mkClassified (entry :: insertedNew c)
                 (TimeLogSyncData_default :: insertedOld c)
                 (updatedNew c) (updatedOld c)
  end
end.

(** [removedMerged[i]]: the local record with the peer's uuid and mtime. *)
Definition merge_removed (old new : TimeLogSyncData) : TimeLogSyncData :=
mkSync (mkEntry (uuid new) (startTime old) (category old) (comment old)
          (durationTime old) (precedingStart old))
       (mTime new).

Definition sync (now : Z) (updatedData removedData : list TimeLogSyncData)
  : M unit :=
d ← gets db;
let '(removedNew, removedOld) := classify_removed d removedData in
let c := classify_updated d updatedData in
emit (syncStatsAvailable removedOld removedNew (insertedOld c) (insertedNew c)
        (updatedOld c) (updatedNew c)) ;;
let removedMerged := zip_with merge_removed removedOld removedNew in
ok ← syncData now removedMerged (insertedNew c) (updatedNew c) (updatedOld c);
if ok : bool then emit (dataSynced updatedData removedData) else mret tt.

Definition undo (now : Z) : M unit :=
st ← gets m_undoStack;
match last st with
| None => mret tt
| Some undo =>
  modify (set_m_undoStack (removelast st)) ;;
  match undo_type undo with
  | UndoInsert => removeEntry now (hd TimeLogEntry_default (undo_data undo))
  | UndoRemove => insertEntry now (hd TimeLogEntry_default (undo_data undo))
  | UndoEdit =>
    editEntry now (hd TimeLogEntry_default (undo_data undo))
      (hd TimeLogHistory.NoFields (undo_fields undo)) ;;
    mret tt
  | UndoEditCategory => editEntries now (undo_data undo) (undo_fields undo)
  end ;;
  st' ← gets m_undoStack;
  emit (undoCountChanged (Z.of_nat (length st')))
end.

Definition getHistoryBefore (id : Z) (limit : N) (until : QDateTime) : M unit :=
d ← gets db;
let result :=
  select_fields (timelog d) <$>
    rows_lt_desc (timelog d) (toTime_t until) (N.to_nat limit) in
emit (historyRequestCompleted (reverse result) id).

End Worker.

(** ** Commands and runs *)

Inductive Command :=
| Insert (data : TimeLogEntry)
| Import (data : list TimeLogEntry)
| Remove (data : TimeLogEntry)
| Edit (data : TimeLogEntry) (fields : Z)
| EditCategory (oldName newName : string)
| Sync (updatedData removedData : list TimeLogSyncData)
| UndoCmd
| GetHistoryBefore (id : Z) (limit : N) (until : QDateTime).

(** One command, issued when the clock reads [now]. *)
Definition run (now : Z) (c : Command) : M unit :=
  match c with
  | Insert data => Worker.insert now data
  | Import data => Worker.import now data
  | Remove data => Worker.remove now data
  | Edit data fields => Worker.edit now data fields
  | EditCategory oldName newName => Worker.editCategory now oldName newName
  | Sync updatedData removedData => Worker.sync now updatedData removedData
  | UndoCmd => Worker.undo now
  | GetHistoryBefore id limit until => Worker.getHistoryBefore id limit until
  end.

(** A run: commands with the clock reading of each, from a given state. *)
Fixpoint run_all (cs : list (Z * Command)) (w : Worker) : Worker :=
  match cs with
  | [] => w
  | (now, c) :: cs' => run_all cs' (state_of (run now c w))
  end.

Definition reachable (w : Worker) : Prop := ∃ cs, w = run_all cs initial.

(** * Specifications *)

(** ** The invariant of the database *)

(** The duration a row starting at [x] must carry: the distance to the
    next start, or -1 when no row follows. *)
Definition expected_duration (t : list Row) (x : Z) : Z :=
  ifnull ((λ s, s - x) <$> next_start t x) (-1).

(** The two key constraints of the schema, the derived durations, the
    separation of live rows and tombstones, and the range of the start
    column (every stored start comes out of [toTime_t]). *)
Record db_inv (d : Db) : Prop := mk_db_inv {
  inv_start_key : NoDup (starts (timelog d));
  inv_uuid_unique : NoDup (uuids (timelog d));
  inv_duration : ∀ r, r ∈ timelog d →
    r_duration r = Some (expected_duration (timelog d) (r_start r));
  inv_tombstone : ∀ r, r ∈ timelog d → removed d !! r_uuid r = None;
  inv_start_range : ∀ r, r ∈ timelog d → 0 ≤ r_start r ≤ uint_max
}.

(** What the subqueries for the neighbouring start compute, as
    relations. *)
Definition is_next (l : list Z) (x : Z) (o : option Z) : Prop :=
  match o with
  | Some s => s ∈ l ∧ x < s ∧ ∀ s', s' ∈ l → x < s' → s ≤ s'
  | None => ∀ s', s' ∈ l → s' ≤ x
  end.
Definition is_prev (l : list Z) (x : Z) (o : option Z) : Prop :=
  match o with
  | Some s => s ∈ l ∧ s < x ∧ ∀ s', s' ∈ l → s' < x → s' ≤ s
  | None => ∀ s', s' ∈ l → x ≤ s'
  end.

(** The same subqueries on the list of starts alone. *)
Definition nxt (l : list Z) (x : Z) : option Z := list_min (filter (λ s, x < s) l).
Definition prv (l : list Z) (x : Z) : option Z := list_max (filter (λ s, s < x) l).

(** A row without its derived column. *)
Definition erase_duration (r : Row) : Row := set_duration None r.

(** ** Properties of member functions *)

(** A member function respects a relation between the state before, the
    state after and the signals emitted, when every call is in it. *)
Definition respects_at (R : Worker → Worker → list Event → Prop) {A}
    (m : M A) (w : Worker) : Prop :=
  R w (state_of (m w)) (events_of (m w)).

Definition respects (R : Worker → Worker → list Event → Prop) {A}
    (m : M A) : Prop :=
  ∀ w, respects_at R m w.

(** The relation "the invariant of the database is kept". *)
Definition keeps_db_inv (w w' : Worker) (_ : list Event) : Prop :=
  db_inv (db w) → db_inv (db w').

(** The relation "the database is left as it was". *)
Definition same_db (w w' : Worker) (_ : list Event) : Prop := db w' = db w.

(** ** The testable invariants of the timeline *)

(** The rows that are open-ended. *)
Definition open_rows (t : list Row) : list Row :=
  filter (λ r, r_duration r = Some (-1)) t.

(** I1: at most one open row, exactly one iff the table is non-empty, and
    it has the maximum start. *)
Definition I1 (t : list Row) : Prop :=
  (length (open_rows t) ≤ 1)%nat ∧
  (length (open_rows t) = 1%nat ↔ t ≠ []) ∧
  ∀ r r', r ∈ open_rows t → r' ∈ t → r_start r' ≤ r_start r.

(** [A] and [B] are live rows, [A] before [B], with no row between. *)
Definition adjacent (t : list Row) (A B : Row) : Prop :=
  A ∈ t ∧ B ∈ t ∧ r_start A < r_start B ∧
  ∀ C, C ∈ t → ¬ (r_start A < r_start C < r_start B).

(** I2: the duration of a row is the distance to the row after it. *)
Definition I2 (t : list Row) : Prop :=
  ∀ A B, adjacent t A B → r_duration A = Some (r_start B - r_start A).

(** I3: a uuid has at most one record, counting live rows and
    tombstones. *)
Definition I3 (d : Db) : Prop :=
  ∀ u : N,
    (length (filter (λ r, r_uuid r = u) (timelog d)) +
     (if removed d !! u is Some _ then 1 else 0) ≤ 1)%nat.

(** * Theorems *)

(** ** The neighbour subqueries *)

Lemma list_min_spec (l : list Z) :
  match list_min l with
  | Some m => m ∈ l ∧ ∀ s, s ∈ l → m ≤ s
  | None => l = []
  end.
Proof.
  induction l as [|a l IH]; simpl; [done|].
  destruct (list_min l) as [m|]; simpl.
  - destruct IH as [Hm Hle]. split.
    + destruct (Z.min_spec a m) as [[_ ->]|[_ ->]]; set_solver.
    + intros s [->|Hs]%elem_of_cons; [lia|]. specialize (Hle s Hs). lia.
  - subst l. split; [set_solver|]. intros s ->%list_elem_of_singleton. lia.
Qed.

Lemma list_max_spec (l : list Z) :
  match list_max l with
  | Some m => m ∈ l ∧ ∀ s, s ∈ l → s ≤ m
  | None => l = []
  end.
Proof.
  induction l as [|a l IH]; simpl; [done|].
  destruct (list_max l) as [m|]; simpl.
  - destruct IH as [Hm Hle]. split.
    + destruct (Z.max_spec a m) as [[_ ->]|[_ ->]]; set_solver.
    + intros s [->|Hs]%elem_of_cons; [lia|]. specialize (Hle s Hs). lia.
  - subst l. split; [set_solver|]. intros s ->%list_elem_of_singleton. lia.
Qed.

Lemma is_next_unique l x o1 o2 : is_next l x o1 → is_next l x o2 → o1 = o2.
Proof.
  destruct o1 as [a|], o2 as [b|]; simpl; try done.
  - intros (Ha & Hxa & Hmin1) (Hb & Hxb & Hmin2). f_equal.
    specialize (Hmin1 b Hb). specialize (Hmin2 a Ha). lia.
  - intros (Ha & Hxa & _) Hall. specialize (Hall a Ha). lia.
  - intros Hall (Hb & Hxb & _). specialize (Hall b Hb). lia.
Qed.

Lemma is_prev_unique l x o1 o2 : is_prev l x o1 → is_prev l x o2 → o1 = o2.
Proof.
  destruct o1 as [a|], o2 as [b|]; simpl; try done.
  - intros (Ha & Hxa & Hmin1) (Hb & Hxb & Hmin2). f_equal.
    specialize (Hmin1 b Hb). specialize (Hmin2 a Ha). lia.
  - intros (Ha & Hxa & _) Hall. specialize (Hall a Ha). lia.
  - intros Hall (Hb & Hxb & _). specialize (Hall b Hb). lia.
Qed.

Lemma nxt_spec l x : is_next l x (nxt l x).
Proof.
  unfold nxt, is_next.
  pose proof (list_min_spec (filter (λ s, x < s) l)) as H.
  destruct (list_min _) as [m|].
  - destruct H as [[Hm1 Hm2]%list_elem_of_filter Hle]. repeat split; try done.
    intros s' Hs' Hlt. apply Hle. by apply list_elem_of_filter.
  - intros s' Hs'. destruct (decide (x < s')) as [Hlt|]; [|lia].
    assert (s' ∈ filter (λ s, x < s) l) as Hin by by apply list_elem_of_filter.
    rewrite H in Hin. by apply elem_of_nil in Hin.
Qed.

Lemma prv_spec l x : is_prev l x (prv l x).
Proof.
  unfold prv, is_prev.
  pose proof (list_max_spec (filter (λ s, s < x) l)) as H.
  destruct (list_max _) as [m|].
  - destruct H as [[Hm1 Hm2]%list_elem_of_filter Hle]. repeat split; try done.
    intros s' Hs' Hlt. apply Hle. by apply list_elem_of_filter.
  - intros s' Hs'. destruct (decide (s' < x)) as [Hlt|]; [|lia].
    assert (s' ∈ filter (λ s, s < x) l) as Hin by by apply list_elem_of_filter.
    rewrite H in Hin. by apply elem_of_nil in Hin.
Qed.

Lemma nxt_intro l x o : is_next l x o → nxt l x = o.
Proof. intros. eapply is_next_unique; [apply nxt_spec|done]. Qed.
Lemma prv_intro l x o : is_prev l x o → prv l x = o.
Proof. intros. eapply is_prev_unique; [apply prv_spec|done]. Qed.

Section insert_start.
Context (l l' : list Z) (x : Z).
Hypothesis Hmem : ∀ y, y ∈ l' ↔ y ∈ l ∨ y = x.

Lemma prv_insert_self : prv l' x = prv l x.
Proof.
  apply prv_intro. pose proof (prv_spec l x) as H.
  destruct (prv l x) as [s|]; simpl in *.
  - destruct H as (Hs & Hlt & Hmax). split_and!; [apply Hmem; auto|done|].
    intros y [Hy| ->]%Hmem Hylt; [auto|lia].
  - intros y [Hy| ->]%Hmem; [auto|lia].
Qed.

Lemma nxt_insert_other s :
  s ∈ l → prv l x ≠ Some s → nxt l' s = nxt l s.
Proof.
  intros Hs Hprev. apply nxt_intro. pose proof (nxt_spec l s) as H.
  assert (s < x → (∀ y, y ∈ l → y < x → y ≤ s) → False) as Hcontra.
  { intros Hlt Hmax. apply Hprev, prv_intro. simpl. auto. }
  destruct (nxt l s) as [n|]; simpl in *.
  - destruct H as (Hn & Hlt & Hmin). split_and!; [apply Hmem; auto|done|].
    intros y [Hy| ->]%Hmem Hylt; [auto|].
    destruct (decide (n ≤ x)); [done|]. destruct Hcontra; [done|].
    intros y Hy Hyx. destruct (decide (y ≤ s)); [done|].
    specialize (Hmin y Hy). lia.
  - intros y [Hy| ->]%Hmem; [auto|].
    destruct (decide (x ≤ s)); [done|]. destruct Hcontra; [lia|].
    intros y Hy _. auto.
Qed.

Lemma prv_insert_other o s :
  x ∉ l → prv l' o ≠ Some s → prv l' x ≠ Some s → prv l o ≠ Some s.
Proof.
  intros Hx H1 H2 Hp. pose proof (prv_spec l o) as H. rewrite Hp in H.
  destruct H as (Hs & Hlt & Hmax).
  destruct (decide (s < x < o)).
  - apply H2, prv_intro. simpl. split_and!; [apply Hmem; auto|lia|].
    intros y [Hy| ->]%Hmem Hyx; [|lia]. apply Hmax; [done|lia].
  - apply H1, prv_intro. simpl. split_and!; [apply Hmem; auto|lia|].
    intros y [Hy| ->]%Hmem Hyx; [by apply Hmax|].
    destruct (decide (x = s)) as [->|]; [done|]. lia.
Qed.
End insert_start.

Lemma nxt_prv l x s : x ∈ l → prv l x = Some s → nxt l s = Some x.
Proof.
  intros Hx Hp. pose proof (prv_spec l x) as H. rewrite Hp in H.
  destruct H as (Hs & Hlt & Hmax). apply nxt_intro. simpl.
  split_and!; [done..|]. intros y Hy Hsy.
  destruct (decide (x ≤ y)); [done|]. specialize (Hmax y Hy). lia.
Qed.

Lemma nxt_skip l x s : x ∉ l → prv l x = Some s → nxt l s = nxt l x.
Proof.
  intros Hx Hp. pose proof (prv_spec l x) as H. rewrite Hp in H.
  destruct H as (Hs & Hlt & Hmax). apply nxt_intro.
  pose proof (nxt_spec l x) as Hn.
  destruct (nxt l x) as [n|]; simpl in *.
  - destruct Hn as (Hn & Hxn & Hmin). split_and!; [done|lia|].
    intros y Hy Hsy. apply Hmin; [done|].
    destruct (decide (x < y)); [done|].
    assert (y ≠ x) by (intros ->; done). specialize (Hmax y Hy). lia.
  - intros y Hy. specialize (Hn y Hy).
    assert (y ≠ x) by (intros ->; done). specialize (Hmax y Hy). lia.
Qed.

(** ** The statements keep the invariant *)

Lemma toTime_t_range d : 0 ≤ toTime_t d ≤ uint_max.
Proof.
  unfold toTime_t, uint_max. destruct d as [s|]; [|lia].
  case_bool_decide; lia.
Qed.

Lemma next_start_nxt t x : next_start t x = nxt (starts t) x.
Proof. done. Qed.
Lemma prev_start_prv t x : prev_start t x = prv (starts t) x.
Proof. done. Qed.

Lemma sql_update_fmap c f t :
  (∀ r, r_mtime (f r) = r_mtime r) →
  sql_update c f t = (λ r, if c r then f r else r) <$> t.
Proof.
  intros Hm. unfold sql_update. apply list_fmap_ext. intros _ r _.
  destruct (c r); [|done]. unfold check_update_timelog.
  rewrite Hm, bool_decide_false; [done|lia].
Qed.

Lemma erase_sql_update c f t :
  (∀ r, erase_duration (f r) = erase_duration r) →
  erase_duration <$> sql_update c f t = erase_duration <$> t.
Proof.
  intros He. unfold sql_update. rewrite <- list_fmap_compose.
  apply list_fmap_ext. intros _ r _. simpl. repeat case_match; auto.
Qed.

Lemma starts_erase t t' :
  erase_duration <$> t = erase_duration <$> t' → starts t = starts t'.
Proof.
  intros H. apply (f_equal (fmap r_start)) in H.
  by rewrite <- !list_fmap_compose in H.
Qed.

Lemma uuids_erase t t' :
  erase_duration <$> t = erase_duration <$> t' → uuids t = uuids t'.
Proof.
  intros H. apply (f_equal (fmap r_uuid)) in H.
  by rewrite <- !list_fmap_compose in H.
Qed.

Lemma starts_sql_update c f t :
  (∀ r, erase_duration (f r) = erase_duration r) →
  starts (sql_update c f t) = starts t.
Proof. intros. by apply starts_erase, erase_sql_update. Qed.

Lemma expected_duration_starts t t' x :
  starts t = starts t' → expected_duration t x = expected_duration t' x.
Proof. unfold expected_duration, next_start. by intros ->. Qed.

Lemma elem_of_starts t s : s ∈ starts t ↔ ∃ r, r ∈ t ∧ r_start r = s.
Proof.
  unfold starts. rewrite list_elem_of_fmap.
  split; [intros (r & -> & Hr)|intros (r & Hr & <-)]; eauto.
Qed.
Lemma elem_of_uuids t u : u ∈ uuids t ↔ ∃ r, r ∈ t ∧ r_uuid r = u.
Proof.
  unfold uuids. rewrite list_elem_of_fmap.
  split; [intros (r & -> & Hr)|intros (r & Hr & <-)]; eauto.
Qed.

Lemma starts_app t1 t2 : starts (t1 ++ t2) = starts t1 ++ starts t2.
Proof. unfold starts. apply fmap_app. Qed.
Lemma uuids_app t1 t2 : uuids (t1 ++ t2) = uuids t1 ++ uuids t2.
Proof. unfold uuids. apply fmap_app. Qed.

Lemma expected_duration_next t x s :
  nxt (starts t) x = Some s → expected_duration t x = s - x.
Proof. unfold expected_duration, next_start, nxt. by intros ->. Qed.

(** Rows are determined by their start, and by their uuid. *)
Lemma fmap_NoDup_inj {A B} (f : A → B) (l : list A) x y :
  NoDup (f <$> l) → x ∈ l → y ∈ l → f x = f y → x = y.
Proof.
  induction l as [|a l IH]; simpl; [by intros _ ?%elem_of_nil|].
  rewrite NoDup_cons, list_elem_of_fmap. intros [Hn Hd] H1 H2 Heq.
  apply elem_of_cons in H1 as [->|H1]; apply elem_of_cons in H2 as [->|H2]; auto.
  - destruct Hn. eauto.
  - destruct Hn. eauto.
Qed.

Lemma row_start_inj t r1 r2 :
  NoDup (starts t) → r1 ∈ t → r2 ∈ t → r_start r1 = r_start r2 → r1 = r2.
Proof. apply fmap_NoDup_inj. Qed.
Lemma row_uuid_inj t r1 r2 :
  NoDup (uuids t) → r1 ∈ t → r2 ∈ t → r_uuid r1 = r_uuid r2 → r1 = r2.
Proof. apply fmap_NoDup_inj. Qed.

Lemma fmap_filter_NoDup {A B} (f : A → B) (P : A → Prop)
    `{∀ x, Decision (P x)} (l : list A) :
  NoDup (f <$> l) → NoDup (f <$> filter P l).
Proof.
  intros Hnd. eapply sublist_NoDup; [exact Hnd|].
  apply fmap_sublist, sublist_filter.
Qed.

(** *** [insert_timelog] *)

Lemma insert_timelog_erase new d :
  erase_duration <$> timelog (insert_timelog new d) = erase_duration <$> timelog d.
Proof. unfold insert_timelog. simpl. by rewrite !erase_sql_update. Qed.

Lemma insert_timelog_durations new t rm :
  r_start new ∉ starts t →
  (∀ r, r ∈ t → r_duration r = Some (expected_duration t (r_start r))) →
  let t' := timelog (insert_timelog new (mkDb (t ++ [new]) rm)) in
  ∀ r, r ∈ t' → r_duration r = Some (expected_duration t' (r_start r)).
Proof.
  intros Hfresh Hdur t' r''.
  assert (starts t' = starts (t ++ [new])) as Hs
    by apply starts_erase, insert_timelog_erase.
  rewrite (expected_duration_starts _ _ _ Hs).
  unfold t', insert_timelog. simpl.
  set (x := r_start new). set (t1 := t ++ [new]).
  rewrite (next_start_nxt (sql_update _ _ t1)), starts_sql_update by done.
  rewrite !sql_update_fmap by done.
  intros (r' & -> & (r & -> & Hr)%list_elem_of_fmap)%list_elem_of_fmap.
  assert (∀ y, y ∈ starts t1 ↔ y ∈ starts t ∨ y = x) as Hmem.
  { intros y. unfold t1. rewrite starts_app, elem_of_app. simpl.
    by rewrite list_elem_of_singleton. }
  destruct (decide (r_start r = x)) as [Hx|Hx].
  { assert (∀ r0 : Row, r_start r0 = x → bool_decide (r_start r0 = x) = true) as Hb
      by (intros; by apply bool_decide_eq_true_2).
    rewrite Hb by by case_match. simpl.
    replace (r_start (if bool_decide (Some (r_start r) = prev_start t1 x)
                      then set_duration (Some (x - r_start r)) r else r)) with x
      by by case_match.
    done. }
  assert (r ∈ t) as Hrt.
  { apply elem_of_app in Hr as [Hr'| ->%list_elem_of_singleton]; done. }
  assert (r_start r ∈ starts t) as Hrs by (apply elem_of_starts; eauto).
  rewrite prev_start_prv.
  destruct (decide (Some (r_start r) = prv (starts t1) x)) as [Hprev|Hprev];
    [rewrite (bool_decide_eq_true_2 _ Hprev)|rewrite (bool_decide_eq_false_2 _ Hprev)];
    simpl; rewrite (bool_decide_eq_false_2 _ Hx); simpl.
  - f_equal. symmetry. apply expected_duration_next, nxt_prv; [|done].
    apply Hmem. auto.
  - rewrite (Hdur r Hrt). apply (f_equal Some). unfold expected_duration.
    rewrite !next_start_nxt.
    rewrite (nxt_insert_other (starts t) (starts t1) x Hmem); [done..|].
    rewrite <- (prv_insert_self _ _ _ Hmem). congruence.
Qed.

(** *** [delete_timelog] *)

Lemma delete_timelog_erase old t :
  erase_duration <$> delete_timelog old t = erase_duration <$> t.
Proof. unfold delete_timelog. by rewrite erase_sql_update. Qed.

Lemma delete_timelog_durations old t t0 :
  r_start old ∉ starts t →
  (∀ y, y ∈ starts t0 ↔ y ∈ starts t ∨ y = r_start old) →
  (∀ r, r ∈ t → r_duration r = Some (expected_duration t0 (r_start r))) →
  let t' := delete_timelog old t in
  ∀ r, r ∈ t' → r_duration r = Some (expected_duration t' (r_start r)).
Proof.
  intros Hx Hmem Hdur t' r'.
  assert (starts t' = starts t) as Hs by apply starts_erase, delete_timelog_erase.
  rewrite (expected_duration_starts _ _ _ Hs).
  unfold t', delete_timelog. rewrite sql_update_fmap by done.
  intros (r & -> & Hr)%list_elem_of_fmap.
  assert (r_start r ∈ starts t) as Hrs by (apply elem_of_starts; eauto).
  rewrite prev_start_prv, next_start_nxt.
  set (x := r_start old) in *.
  destruct (decide (Some (r_start r) = prv (starts t) x)) as [Hprev|Hprev];
    [rewrite (bool_decide_eq_true_2 _ Hprev)|rewrite (bool_decide_eq_false_2 _ Hprev)];
    simpl.
  - apply (f_equal Some). unfold expected_duration. rewrite next_start_nxt.
    by rewrite (nxt_skip (starts t) x (r_start r)).
  - rewrite (Hdur r Hr). apply (f_equal Some). unfold expected_duration.
    rewrite !next_start_nxt.
    rewrite (nxt_insert_other (starts t) (starts t0) x Hmem); [done..|].
    congruence.
Qed.

(** *** [update_timelog] *)

Lemma update_timelog_erase old new t :
  erase_duration <$> update_timelog old new t = erase_duration <$> t.
Proof. unfold update_timelog. by rewrite !erase_sql_update. Qed.

Lemma nullif_Some a b s : nullif a b = Some s ↔ a = Some s ∧ b ≠ Some s.
Proof.
  unfold nullif. destruct a as [x|], b as [y|]; try case_bool_decide;
    naive_solver.
Qed.

(** [l] holds the starts of the rows that stay, [o] is the start the
    moved row leaves and [n] the start it takes. *)
Lemma update_timelog_durations old new t t0 (l : list Z) :
  let o := r_start old in let n := r_start new in
  o ∉ l → n ∉ l →
  (∀ y, y ∈ starts t0 ↔ y ∈ l ∨ y = o) →
  (∀ y, y ∈ starts t ↔ y ∈ l ∨ y = n) →
  (∀ r, r ∈ t → r_start r ≠ n →
        r_duration r = Some (expected_duration t0 (r_start r))) →
  let t' := update_timelog old new t in
  ∀ r, r ∈ t' → r_duration r = Some (expected_duration t' (r_start r)).
Proof.
  intros o n Ho Hn Hmem0 Hmem Hdur t' r'.
  assert (starts t' = starts t) as Hs by apply starts_erase, update_timelog_erase.
  rewrite (expected_duration_starts _ _ _ Hs).
  unfold t', update_timelog. fold o n.
  set (u1 := sql_update _ _ t).
  assert (starts u1 = starts t) as Hs1 by by apply starts_sql_update.
  rewrite !(prev_start_prv u1), !(next_start_nxt u1), Hs1.
  set (u2 := sql_update _ _ u1).
  assert (starts u2 = starts t) as Hs2.
  { unfold u2. by rewrite starts_sql_update. }
  rewrite !(next_start_nxt u2), Hs2.
  unfold u2, u1. rewrite !sql_update_fmap by done.
  intros (r2 & -> & (r1 & -> & (r & -> & Hr)%list_elem_of_fmap)%list_elem_of_fmap)%list_elem_of_fmap.
  rewrite prev_start_prv.
  set (s := r_start r).
  set (r1 := if bool_decide (Some s = prv (starts t) n)
             then set_duration (Some (n - s)) r else r).
  assert (r_start r1 = s) as Hr1 by (unfold r1; by case_match).
  rewrite Hr1.
  set (r2 := if bool_decide (Some s = nullif (prv (starts t) o) (prv (starts t) n))
             then set_duration
                    (Some (ifnull ((λ s0, s0 - s) <$> nxt (starts t) o) (-1))) r1
             else r1).
  assert (r_start r2 = s) as Hr2 by (unfold r2; by case_match).
  rewrite Hr2.
  destruct (decide (s = n)) as [Hsn|Hsn].
  { rewrite (bool_decide_eq_true_2 _ Hsn). simpl.
    unfold expected_duration. rewrite next_start_nxt, Hr2. by rewrite Hsn. }
  rewrite (bool_decide_eq_false_2 _ Hsn), Hr2.
  assert (s ∈ l) as Hsl.
  { destruct (Hmem s) as [[Hl|Hl] _]; [apply elem_of_starts; eauto|done..]. }
  unfold r2.
  destruct (decide (Some s = nullif (prv (starts t) o) (prv (starts t) n)))
    as [Hnull|Hnull];
    [rewrite (bool_decide_eq_true_2 _ Hnull)|rewrite (bool_decide_eq_false_2 _ Hnull)].
  - symmetry in Hnull. apply nullif_Some in Hnull as [Hpo Hpn]. simpl.
    apply (f_equal Some). unfold expected_duration. rewrite next_start_nxt.
    rewrite (nxt_skip (starts t) o s); [done| |done].
    rewrite Hmem. intros [Hol|Hon]; [done|]. rewrite Hon in Hpo. congruence.
  - unfold r1.
    destruct (decide (Some s = prv (starts t) n)) as [Hprev|Hprev];
      [rewrite (bool_decide_eq_true_2 _ Hprev)|rewrite (bool_decide_eq_false_2 _ Hprev)];
      simpl.
    + f_equal. symmetry. apply expected_duration_next, nxt_prv; [|done].
      apply Hmem. auto.
    + rewrite (Hdur r Hr Hsn). fold s. apply (f_equal Some).
      unfold expected_duration. rewrite !next_start_nxt.
      assert (prv (starts t) o ≠ Some s) as Hpo.
      { intros Hpo. apply Hnull. symmetry. apply nullif_Some. split; congruence. }
      rewrite (nxt_insert_other l (starts t0) o Hmem0 s Hsl).
      * rewrite (nxt_insert_other l (starts t) n Hmem s Hsl); [done|].
        rewrite <- (prv_insert_self _ _ _ Hmem). congruence.
      * apply (prv_insert_other l (starts t) n Hmem); [done..|congruence].
Qed.

(** *** The four statements *)

Lemma elem_of_erase (t t' : list Row) r' :
  erase_duration <$> t' = erase_duration <$> t → r' ∈ t' →
  ∃ r, r ∈ t ∧ erase_duration r = erase_duration r'.
Proof.
  intros He Hr'.
  assert (erase_duration r' ∈ erase_duration <$> t) as Hin.
  { rewrite <- He. apply list_elem_of_fmap. eauto. }
  apply list_elem_of_fmap in Hin as (r & Heq & Hr). eauto.
Qed.

Lemma erase_uuid r r' : erase_duration r = erase_duration r' → r_uuid r = r_uuid r'.
Proof. intros H. by apply (f_equal r_uuid) in H. Qed.
Lemma erase_start r r' : erase_duration r = erase_duration r' → r_start r = r_start r'.
Proof. intros H. by apply (f_equal r_start) in H. Qed.
Lemma erase_mtime r r' : erase_duration r = erase_duration r' → r_mtime r = r_mtime r'.
Proof. intros H. by apply (f_equal r_mtime) in H. Qed.

Lemma insert_into_timelog_inv u start cat com mtime d d' n :
  db_inv d → 0 ≤ start ≤ uint_max →
  insert_into_timelog u start cat com mtime d = Some (d', n) → db_inv d'.
Proof.
  intros [Hst Hu Hdur Htomb Hrange] Hstart. unfold insert_into_timelog.
  case_match; [by intros [= <- <-]|].
  case_bool_decide as Hkey; [done|]. intros [= <- <-].
  assert (start ∉ starts (timelog d)) as Hfresh by (intros ?; apply Hkey; auto).
  assert (u ∉ uuids (timelog d)) as Hufresh by (intros ?; apply Hkey; auto).
  set (new := mkRow u start cat com None mtime).
  set (d1 := mkDb (timelog d ++ [new]) (removed d)).
  pose proof (insert_timelog_erase new d1) as He.
  split.
  - rewrite (starts_erase _ _ He). simpl. rewrite starts_app. simpl.
    apply NoDup_app. split_and!; [done| |apply NoDup_singleton].
    intros y Hy ->%list_elem_of_singleton. done.
  - rewrite (uuids_erase _ _ He). simpl. rewrite uuids_app. simpl.
    apply NoDup_app. split_and!; [done| |apply NoDup_singleton].
    intros y Hy ->%list_elem_of_singleton. done.
  - by apply insert_timelog_durations.
  - intros r' (r & Hr & Heq)%(elem_of_erase _ _ _ He). simpl.
    rewrite <- (erase_uuid _ _ Heq).
    apply elem_of_app in Hr as [Hr| ->%list_elem_of_singleton].
    + apply lookup_delete_None. auto.
    + simpl. apply lookup_delete_eq.
  - intros r' (r & Hr & Heq)%(elem_of_erase _ _ _ He).
    rewrite <- (erase_start _ _ Heq).
    apply elem_of_app in Hr as [Hr| ->%list_elem_of_singleton]; auto.
Qed.

(** A table splits around the one row of a uuid. *)
Lemma uuid_split t old :
  NoDup (uuids t) → old ∈ t →
  ∃ ta tb, t = ta ++ old :: tb ∧ ∀ r, r ∈ ta ++ tb → r_uuid r ≠ r_uuid old.
Proof.
  intros Hnd (ta & tb & ->)%list_elem_of_split. exists ta, tb. split; [done|].
  rewrite uuids_app in Hnd. simpl in Hnd.
  apply NoDup_app in Hnd as (_ & Hab & [Hb _]%NoDup_cons).
  intros r [Hr|Hr]%elem_of_app Heq.
  - apply (Hab (r_uuid r)); [apply elem_of_uuids; eauto|].
    rewrite Heq. apply elem_of_cons. auto.
  - apply Hb. rewrite <- Heq. apply elem_of_uuids. eauto.
Qed.

Lemma find_uuid_Some (t : list Row) u old :
  find (λ r, bool_decide (r_uuid r = u)) t = Some old → old ∈ t ∧ r_uuid old = u.
Proof.
  intros [Hin Hb]%find_some. split; [by apply list_elem_of_In|].
  by apply bool_decide_eq_true in Hb.
Qed.

Lemma find_uuid_None (t : list Row) u :
  find (λ r, bool_decide (r_uuid r = u)) t = None → ∀ r, r ∈ t → r_uuid r ≠ u.
Proof.
  intros Hnone r Hr%list_elem_of_In.
  pose proof (find_none _ _ Hnone r Hr) as Hb. simpl in Hb.
  by apply bool_decide_eq_false in Hb.
Qed.

Lemma filter_uuid_other (t : list Row) u :
  (∀ r, r ∈ t → r_uuid r ≠ u) → filter (λ r, r_uuid r ≠ u) t = t.
Proof.
  induction t as [|a t IH]; intros H; [done|].
  rewrite filter_cons_True by (apply H; left).
  rewrite IH; [done|]. intros r Hr. apply H. by right.
Qed.

Lemma filter_uuid_split (ta tb : list Row) old :
  (∀ r, r ∈ ta ++ tb → r_uuid r ≠ r_uuid old) →
  filter (λ r, r_uuid r ≠ r_uuid old) (ta ++ old :: tb) = ta ++ tb.
Proof.
  intros H. rewrite filter_app, filter_cons_False by (intros Hn; by apply Hn).
  rewrite !filter_uuid_other; [done|intros r Hr; apply H, elem_of_app; auto..].
Qed.

Lemma fmap_uuid_other (new : Row) (t : list Row) u :
  (∀ r, r ∈ t → r_uuid r ≠ u) →
  (λ r, if bool_decide (r_uuid r = u) then new else r) <$> t = t.
Proof.
  intros H. rewrite <- (list_fmap_id t) at 2. apply list_fmap_ext.
  intros _ r Hr%list_elem_of_lookup_2. by rewrite bool_decide_eq_false_2 by auto.
Qed.

Lemma fmap_uuid_split (ta tb : list Row) old new :
  (∀ r, r ∈ ta ++ tb → r_uuid r ≠ r_uuid old) →
  (λ r, if bool_decide (r_uuid r = r_uuid old) then new else r)
    <$> (ta ++ old :: tb) = ta ++ new :: tb.
Proof.
  intros H. rewrite fmap_app, fmap_cons, bool_decide_eq_true_2 by done.
  rewrite !fmap_uuid_other; [done|intros r Hr; apply H, elem_of_app; auto..].
Qed.

Lemma NoDup_middle {A} (x : A) l1 l2 :
  NoDup (l1 ++ x :: l2) ↔ ((x ∉ l1 ++ l2) ∧ NoDup (l1 ++ l2)).
Proof.
  rewrite <- NoDup_cons. by rewrite <- Permutation_middle.
Qed.

Lemma delete_from_timelog_inv u rm t :
  db_inv (mkDb t rm) →
  let t' := delete_from_timelog u t in
  NoDup (starts t') ∧ NoDup (uuids t') ∧
  (∀ r, r ∈ t' → r_duration r = Some (expected_duration t' (r_start r))) ∧
  (∀ r, r ∈ t' → r_uuid r ≠ u ∧
     ∃ r0, r0 ∈ t ∧ erase_duration r0 = erase_duration r).
Proof.
  intros [Hst Hu Hdur Htomb Hrange]. simpl in *. unfold delete_from_timelog.
  destruct (find _ t) as [old|] eqn:Hfind.
  - apply find_uuid_Some in Hfind as [Hold <-].
    destruct (uuid_split t old Hu Hold) as (ta & tb & -> & Hother).
    rewrite (filter_uuid_split _ _ _ Hother).
    pose proof (delete_timelog_erase old (ta ++ tb)) as He.
    rewrite starts_app in Hst. simpl in Hst. apply NoDup_middle in Hst as [Hx Hst].
    rewrite uuids_app in Hu. simpl in Hu. apply NoDup_middle in Hu as [_ Hu].
    rewrite <- starts_app in Hst, Hx. rewrite <- uuids_app in Hu.
    split_and!.
    + by rewrite (starts_erase _ _ He).
    + by rewrite (uuids_erase _ _ He).
    + apply (delete_timelog_durations old (ta ++ tb) (ta ++ old :: tb)); [done|..].
      * intros y. rewrite !starts_app. simpl.
        rewrite !elem_of_app, elem_of_cons. tauto.
      * intros r Hr. apply Hdur.
        apply elem_of_app in Hr as [Hr|Hr]; apply elem_of_app; auto.
        right. by right.
    + intros r' (r & Hr & Heq)%(elem_of_erase _ _ _ He).
      rewrite <- (erase_uuid _ _ Heq). split; [by apply Hother|].
      exists r. split; [|done].
      apply elem_of_app in Hr as [Hr|Hr]; apply elem_of_app; auto.
      right. by right.
  - split_and!; [done..|]. intros r Hr. split; [|by eauto].
    by apply (find_uuid_None _ _ Hfind).
Qed.

Lemma replace_into_removed_inv u mtime d :
  db_inv d → db_inv (replace_into_removed u mtime d).1.
Proof.
  intros Hinv. unfold replace_into_removed. case_match; [done|]. simpl.
  destruct d as [t rm].
  destruct (delete_from_timelog_inv u rm t Hinv) as (Hst & Hu & Hdur & Hrows).
  destruct Hinv as [_ _ _ Htomb Hrange]. simpl in *.
  split; simpl; [done..| |].
  - intros r Hr. destruct (Hrows r Hr) as (Hne & r0 & Hr0 & Heq).
    rewrite lookup_insert_ne by done.
    rewrite <- (erase_uuid _ _ Heq). auto.
  - intros r Hr. destruct (Hrows r Hr) as (Hne & r0 & Hr0 & Heq).
    rewrite <- (erase_start _ _ Heq). auto.
Qed.

Lemma update_timelog_where_uuid_inv fields data mtime t rm t' :
  db_inv (mkDb t rm) →
  update_timelog_where_uuid fields data mtime t = Some t' →
  db_inv (mkDb t' rm).
Proof.
  intros Hinv. unfold update_timelog_where_uuid.
  destruct (find _ t) as [old|] eqn:Hfind; [|by intros [= <-]].
  apply find_uuid_Some in Hfind as [Hold Hu].
  set (new := mkRow _ _ _ _ _ _).
  case_match; [by intros [= <-]|].
  case_bool_decide as Hkey; [done|]. intros [= <-].
  destruct Hinv as [Hst Hnu Hdur Htomb Hrange]. simpl in *.
  destruct (uuid_split t old Hnu Hold) as (ta & tb & -> & Hother).
  rewrite <- Hu, (fmap_uuid_split _ _ _ new Hother).
  rewrite starts_app in Hst. simpl in Hst. apply NoDup_middle in Hst as [Ho Hst].
  rewrite <- starts_app in Hst, Ho.
  assert (r_start new ∉ starts (ta ++ tb)) as Hn.
  { intros Hin. destruct (decide (r_start new = r_start old)) as [Heq|Hne].
    - by rewrite Heq in Hin.
    - apply Hkey. split; [done|]. rewrite starts_app in Hin. rewrite starts_app. simpl.
      apply elem_of_app in Hin as [?|?]; apply elem_of_app; auto. right. by right. }
  assert (0 ≤ r_start new ≤ uint_max) as Hnr.
  { simpl. case_match; [apply toTime_t_range|]. apply Hrange.
    apply elem_of_app. right. by left. }
  assert (∀ t1, erase_duration <$> t1 = erase_duration <$> (ta ++ new :: tb) →
    (∀ r, r ∈ t1 → r_duration r = Some (expected_duration t1 (r_start r))) →
    db_inv (mkDb t1 rm)) as Hgoal.
  { intros t1 He Hd. split; simpl.
    - rewrite (starts_erase _ _ He), starts_app. simpl. apply NoDup_middle.
      by rewrite <- starts_app.
    - rewrite (uuids_erase _ _ He), uuids_app. simpl.
      by rewrite uuids_app in Hnu.
    - done.
    - intros r' (r & Hr & Heq)%(elem_of_erase _ _ _ He).
      rewrite <- (erase_uuid _ _ Heq).
      apply elem_of_app in Hr as [Hr|[->|Hr]%elem_of_cons].
      + apply Htomb, elem_of_app. auto.
      + simpl. apply Htomb, elem_of_app. right. by left.
      + apply Htomb, elem_of_app. right. by right.
    - intros r' (r & Hr & Heq)%(elem_of_erase _ _ _ He).
      rewrite <- (erase_start _ _ Heq).
      apply elem_of_app in Hr as [Hr|[->|Hr]%elem_of_cons]; [|done|].
      + apply Hrange, elem_of_app. auto.
      + apply Hrange, elem_of_app. right. by right. }
  assert (∀ r, r ∈ ta ++ new :: tb → r_start r ≠ r_start new →
               r ∈ ta ++ old :: tb) as Hin0.
  { intros r [Hr|[->|Hr]%elem_of_cons]%elem_of_app Hne; [|done|];
      apply elem_of_app; auto. right. by right. }
  destruct (has_flag fields TimeLogHistory.StartTime) eqn:Hflag.
  - apply Hgoal; [apply update_timelog_erase|].
    apply (update_timelog_durations old new _ (ta ++ old :: tb) (starts (ta ++ tb)));
      [done..| | |].
    + intros y. rewrite !starts_app. simpl. rewrite !elem_of_app, elem_of_cons. tauto.
    + intros y. rewrite !starts_app. simpl. rewrite !elem_of_app, elem_of_cons. tauto.
    + intros r Hr Hne. apply Hdur. auto.
  - apply Hgoal; [done|].
    assert (starts (ta ++ new :: tb) = starts (ta ++ old :: tb)) as Hs.
    { rewrite !starts_app. by simpl. }
    intros r Hr. rewrite (expected_duration_starts _ _ _ Hs).
    destruct (decide (r_start r = r_start new)) as [Heq|Hne]; [|by auto].
    assert (r = new) as ->.
    { apply (row_start_inj (ta ++ new :: tb)); [|done| |done].
      - rewrite starts_app. simpl. apply NoDup_middle. by rewrite <- starts_app.
      - apply elem_of_app. right. by left. }
    simpl. apply Hdur, elem_of_app. right. by left.
Qed.

Lemma update_timelog_where_category_inv oldName newName mtime d :
  db_inv d →
  db_inv (mkDb (update_timelog_where_category oldName newName mtime (timelog d))
               (removed d)).
Proof.
  intros [Hst Hnu Hdur Htomb Hrange]. unfold update_timelog_where_category.
  set (t' := sql_update _ _ _).
  assert (∀ r', r' ∈ t' → ∃ r, r ∈ timelog d ∧ r_uuid r' = r_uuid r ∧
            r_start r' = r_start r ∧ r_duration r' = r_duration r) as Hrows.
  { intros r' (r & -> & Hr)%list_elem_of_fmap. exists r. by repeat case_match. }
  assert (starts t' = starts (timelog d)) as Hs.
  { unfold t', starts, sql_update. rewrite <- list_fmap_compose.
    apply list_fmap_ext. intros _ r _. simpl. by repeat case_match. }
  assert (uuids t' = uuids (timelog d)) as Hus.
  { unfold t', uuids, sql_update. rewrite <- list_fmap_compose.
    apply list_fmap_ext. intros _ r _. simpl. by repeat case_match. }
  split; simpl.
  - by rewrite Hs.
  - by rewrite Hus.
  - intros r' Hr'. destruct (Hrows r' Hr') as (r & Hr & _ & -> & ->).
    rewrite (expected_duration_starts _ _ _ Hs). auto.
  - intros r' Hr'. destruct (Hrows r' Hr') as (r & Hr & -> & _). auto.
  - intros r' Hr'. destruct (Hrows r' Hr') as (r & Hr & _ & -> & _). auto.
Qed.

Lemma empty_db_inv : db_inv empty_db.
Proof.
  split; simpl; try apply NoDup_nil_2; intros r Hr; by apply elem_of_nil in Hr.
Qed.

(** ** Running member functions *)

Lemma run_bind {A B} (m : M A) (f : A → M B) w :
  (m ≫= f) w =
  (value_of (f (value_of (m w)) (state_of (m w))),
   state_of (f (value_of (m w)) (state_of (m w))),
   events_of (m w) ++ events_of (f (value_of (m w)) (state_of (m w)))).
Proof.
  unfold mbind, M_bind, value_of, state_of, events_of.
  destruct (m w) as [[a w1] e1]. simpl. by destruct (f a w1) as [[b w2] e2].
Qed.

Lemma state_of_bind {A B} (m : M A) (f : A → M B) w :
  state_of ((m ≫= f) w) = state_of (f (value_of (m w)) (state_of (m w))).
Proof. by rewrite run_bind. Qed.
Lemma events_of_bind {A B} (m : M A) (f : A → M B) w :
  events_of ((m ≫= f) w) =
  events_of (m w) ++ events_of (f (value_of (m w)) (state_of (m w))).
Proof. by rewrite run_bind. Qed.
Lemma value_of_bind {A B} (m : M A) (f : A → M B) w :
  value_of ((m ≫= f) w) = value_of (f (value_of (m w)) (state_of (m w))).
Proof. by rewrite run_bind. Qed.

Lemma run_transaction (body : M bool) w :
  transaction body w =
  (value_of (body w),
   if value_of (body w) then state_of (body w)
   else set_db (db w) (state_of (body w)),
   events_of (body w)).
Proof.
  unfold transaction, value_of, state_of, events_of.
  destruct (body w) as [[[] w1] e1]; done.
Qed.

(** Rules for relations that are closed under sequencing. *)
Section respects.
Context (R : Worker → Worker → list Event → Prop).
Hypothesis R_refl : ∀ w, R w w [].
Hypothesis R_trans : ∀ w1 w2 w3 e1 e2,
  R w1 w2 e1 → R w2 w3 e2 → R w1 w3 (e1 ++ e2).

Lemma ret_at {A} (a : A) w : respects_at R (mret a) w.
Proof. apply R_refl. Qed.

Lemma bind_at {A B} (m : M A) (f : A → M B) w :
  respects_at R m w →
  respects_at R (f (value_of (m w))) (state_of (m w)) →
  respects_at R (m ≫= f) w.
Proof.
  unfold respects_at. rewrite state_of_bind, events_of_bind. apply R_trans.
Qed.

Lemma gets_at {A B} (g : Worker → A) (f : A → M B) w :
  respects_at R (f (g w)) w → respects_at R (gets g ≫= f) w.
Proof. intros H. apply bind_at; [apply R_refl|done]. Qed.

Lemma modify_at {B} (g : Worker → Worker) (f : unit → M B) w :
  R w (g w) [] → respects_at R (f tt) (g w) → respects_at R (modify g ≫= f) w.
Proof. intros H1 H2. by apply bind_at. Qed.

Lemma emit_at {B} (e : Event) (f : unit → M B) w :
  R w w [e] → respects_at R (f tt) w → respects_at R (emit e ≫= f) w.
Proof. intros H1 H2. by apply bind_at. Qed.

Lemma respects_bind {A B} (m : M A) (f : A → M B) :
  respects R m → (∀ a, respects R (f a)) → respects R (m ≫= f).
Proof. intros Hm Hf w. apply bind_at; [apply Hm|apply Hf]. Qed.

Lemma respects_ret {A} (a : A) : respects R (mret a).
Proof. intros w. apply ret_at. Qed.

Lemma respects_gets {A} (g : Worker → A) : respects R (gets g).
Proof. intros w. apply R_refl. Qed.

Lemma respects_for_each {A} (f : A → M unit) l :
  (∀ x, respects R (f x)) → respects R (for_each f l).
Proof.
  intros Hf. induction l as [|x l IH]; simpl; [apply respects_ret|].
  apply respects_bind; auto.
Qed.

Lemma respects_all_ok {A} (f : A → M bool) l :
  (∀ x, respects R (f x)) → respects R (all_ok f l).
Proof.
  intros Hf. induction l as [|x l IH]; simpl; [apply respects_ret|].
  apply respects_bind; [done|]. intros []; [done|apply respects_ret].
Qed.

Hypothesis R_rollback : ∀ w w' e, R w w' e → R w (set_db (db w) w') e.

Lemma respects_transaction (body : M bool) :
  respects R body → respects R (transaction body).
Proof.
  intros Hb w. specialize (Hb w). unfold respects_at in *.
  rewrite run_transaction. unfold state_of, events_of in *. simpl.
  destruct (body w) as [[[] w1] e1]; simpl in *; auto.
Qed.
End respects.

(** One step of symbolic execution of a member function, for a relation
    with the given proofs of reflexivity and transitivity. *)
Ltac mstep_with refl trans :=
  lazymatch goal with
  | |- respects _ _ => intros ?w
  | |- respects_at _ (mret _) _ => apply (ret_at _ refl)
  | |- respects_at _ (gets _ ≫= _) _ => apply (gets_at _ refl trans)
  | |- respects_at _ (modify _ ≫= _) _ => apply (modify_at _ trans)
  | |- respects_at _ (emit _ ≫= _) _ => apply (emit_at _ trans)
  | |- respects_at _ (_ ≫= _) _ => apply (bind_at _ trans)
  | |- respects_at _ (if ?b then _ else _) _ => destruct b eqn:?
  | |- respects_at _ (match ?x with _ => _ end) _ => destruct x eqn:?
  | |- respects_at _ (emit _) _ => unfold respects_at; simpl
  | |- respects_at _ (modify _) _ => unfold respects_at; simpl
  | |- respects_at _ (gets _) _ => apply refl
  end.

(** ** Functions that leave the database alone *)

Lemma same_db_refl w : same_db w w [].
Proof. done. Qed.
Lemma same_db_trans w1 w2 w3 e1 e2 :
  same_db w1 w2 e1 → same_db w2 w3 e2 → same_db w1 w3 (e1 ++ e2).
Proof. unfold same_db. congruence. Qed.
Lemma same_db_rollback w w' e : same_db w w' e → same_db w (set_db (db w) w') e.
Proof. done. Qed.

Ltac same_db_step := mstep_with same_db_refl same_db_trans.
Ltac same_db_steps := repeat (same_db_step; try done).

Lemma same_db_setSize size : respects same_db (Worker.setSize size).
Proof. unfold Worker.setSize. same_db_steps. Qed.
Lemma same_db_removeFromCategories c :
  respects same_db (Worker.removeFromCategories c).
Proof. unfold Worker.removeFromCategories. same_db_steps. Qed.
Lemma same_db_addToCategories c : respects same_db (Worker.addToCategories c).
Proof. unfold Worker.addToCategories. same_db_steps. Qed.
Lemma same_db_processFail : respects same_db Worker.processFail.
Proof. unfold Worker.processFail. same_db_steps. Qed.
Lemma same_db_pushUndo u : respects same_db (Worker.pushUndo u).
Proof. unfold Worker.pushUndo. same_db_steps. Qed.
Lemma same_db_notifyUpdates rows fields :
  respects same_db (Worker.notifyUpdates rows fields).
Proof. unfold Worker.notifyUpdates. same_db_steps. Qed.
Lemma same_db_notifyInsertUpdates data :
  respects same_db (Worker.notifyInsertUpdates data).
Proof. apply same_db_notifyUpdates. Qed.
Lemma same_db_notifyRemoveUpdates data :
  respects same_db (Worker.notifyRemoveUpdates data).
Proof. apply same_db_notifyUpdates. Qed.
Lemma same_db_notifyEditUpdates data fields oldStart :
  respects same_db (Worker.notifyEditUpdates data fields oldStart).
Proof.
  unfold Worker.notifyEditUpdates. case_match; apply same_db_notifyUpdates.
Qed.
Lemma same_db_updateCategories b e :
  respects same_db (Worker.updateCategories b e).
Proof. unfold Worker.updateCategories. same_db_steps. Qed.
Lemma same_db_getHistoryBefore id limit until :
  respects same_db (Worker.getHistoryBefore id limit until).
Proof. unfold Worker.getHistoryBefore. same_db_steps. Qed.

(** ** Every member function keeps the invariant *)

Lemma keeps_refl w : keeps_db_inv w w [].
Proof. by intros ?. Qed.
Lemma keeps_trans w1 w2 w3 e1 e2 :
  keeps_db_inv w1 w2 e1 → keeps_db_inv w2 w3 e2 → keeps_db_inv w1 w3 (e1 ++ e2).
Proof. unfold keeps_db_inv. auto. Qed.
Lemma keeps_rollback w w' e :
  keeps_db_inv w w' e → keeps_db_inv w (set_db (db w) w') e.
Proof. by intros _ ?. Qed.

Lemma same_db_keeps {A} (m : M A) : respects same_db m → respects keeps_db_inv m.
Proof. intros H w Hinv. by rewrite (H w). Qed.

Create HintDb keeps discriminated.
#[local] Hint Resolve keeps_refl : keeps.
#[local] Hint Extern 1 (respects_at keeps_db_inv _ _) =>
  apply same_db_keeps;
  first [ apply same_db_setSize | apply same_db_removeFromCategories
        | apply same_db_addToCategories | apply same_db_processFail
        | apply same_db_pushUndo | apply same_db_notifyInsertUpdates
        | apply same_db_notifyRemoveUpdates | apply same_db_notifyEditUpdates
        | apply same_db_updateCategories | apply same_db_getHistoryBefore ]
  : keeps.

#[local] Hint Extern 1 (keeps_db_inv _ _ _) => (intros ?; assumption) : keeps.

Ltac keeps_step := mstep_with keeps_refl keeps_trans.
Ltac keeps_steps := repeat (keeps_step; eauto with keeps).

Lemma keeps_insertData now data : respects keeps_db_inv (Worker.insertData now data).
Proof.
  unfold Worker.insertData. keeps_steps.
  intros Hinv. simpl. eapply insert_into_timelog_inv; [done| |done].
  apply toTime_t_range.
Qed.

Lemma keeps_removeData now data : respects keeps_db_inv (Worker.removeData now data).
Proof.
  unfold Worker.removeData. keeps_step. keeps_step.
  destruct (replace_into_removed _ _ _) as [d' n] eqn:Hrep. keeps_steps.
  intros Hinv. simpl.
  change d' with (d', n).1. rewrite <- Hrep. by apply replace_into_removed_inv.
Qed.

Lemma keeps_editData now data fields :
  respects keeps_db_inv (Worker.editData now data fields).
Proof.
  unfold Worker.editData. keeps_steps.
  intros Hinv. simpl. eapply update_timelog_where_uuid_inv; [|done].
  by destruct (db w).
Qed.

Lemma keeps_editCategoryData now oldName newName :
  respects keeps_db_inv (Worker.editCategoryData now oldName newName).
Proof.
  unfold Worker.editCategoryData. keeps_steps.
  intros Hinv. simpl. by apply update_timelog_where_category_inv.
Qed.

#[local] Hint Resolve keeps_insertData keeps_removeData keeps_editData
  keeps_editCategoryData : keeps.
#[local] Hint Extern 0 (respects_at keeps_db_inv (Worker.insertData _ _) _) =>
  apply keeps_insertData : keeps.
#[local] Hint Extern 0 (respects_at keeps_db_inv (Worker.removeData _ _) _) =>
  apply keeps_removeData : keeps.
#[local] Hint Extern 0 (respects_at keeps_db_inv (Worker.editData _ _ _) _) =>
  apply keeps_editData : keeps.
#[local] Hint Extern 0 (respects_at keeps_db_inv (Worker.editCategoryData _ _ _) _) =>
  apply keeps_editCategoryData : keeps.

Lemma keeps_for_each {A} (f : A → M unit) l :
  (∀ x, respects keeps_db_inv (f x)) → respects keeps_db_inv (for_each f l).
Proof. apply respects_for_each; [apply keeps_refl|apply keeps_trans]. Qed.
Lemma keeps_all_ok {A} (f : A → M bool) l :
  (∀ x, respects keeps_db_inv (f x)) → respects keeps_db_inv (all_ok f l).
Proof. apply respects_all_ok; [apply keeps_refl|apply keeps_trans]. Qed.
Lemma keeps_transaction body :
  respects keeps_db_inv body → respects keeps_db_inv (transaction body).
Proof. apply respects_transaction, keeps_rollback. Qed.

Lemma keeps_insertData_vector now data :
  respects keeps_db_inv (Worker.insertData_vector now data).
Proof.
  apply keeps_transaction, keeps_all_ok. intros e. apply keeps_insertData.
Qed.

Lemma same_db_for_each {A} (f : A → M unit) l :
  (∀ x, respects same_db (f x)) → respects same_db (for_each f l).
Proof. apply respects_for_each; [apply same_db_refl|apply same_db_trans]. Qed.

Lemma keeps_syncData now removed inserted updatedNew updatedOld :
  respects keeps_db_inv
    (Worker.syncData now removed inserted updatedNew updatedOld).
Proof.
  unfold Worker.syncData. keeps_step. keeps_step.
  - apply keeps_transaction. keeps_step.
    keeps_step; [apply keeps_all_ok; intros ?; apply keeps_removeData|].
    keeps_step; [|by keeps_step].
    keeps_step; [apply keeps_all_ok; intros ?; apply keeps_insertData|].
    keeps_step; [|by keeps_step].
    apply keeps_all_ok; intros ?; apply keeps_editData.
  - keeps_step; [|by keeps_step].
    repeat (keeps_step;
      [apply same_db_keeps, same_db_for_each; intros ?; try case_match;
       same_db_steps;
       first [apply same_db_notifyRemoveUpdates|apply same_db_notifyInsertUpdates
             |apply same_db_notifyEditUpdates]|]).
    keeps_step.
Qed.

#[local] Hint Extern 0 (respects_at keeps_db_inv (Worker.syncData _ _ _ _ _) _) =>
  apply keeps_syncData : keeps.
#[local] Hint Extern 0 (respects_at keeps_db_inv (Worker.insertData_vector _ _) _) =>
  apply keeps_insertData_vector : keeps.

Lemma keeps_insertEntry now data :
  respects keeps_db_inv (Worker.insertEntry now data).
Proof. unfold Worker.insertEntry. keeps_steps. Qed.

Lemma keeps_removeEntry now data :
  respects keeps_db_inv (Worker.removeEntry now data).
Proof. unfold Worker.removeEntry. keeps_steps. Qed.

Lemma keeps_editEntry now data fields :
  respects keeps_db_inv (Worker.editEntry now data fields).
Proof. unfold Worker.editEntry. keeps_steps. Qed.

#[local] Hint Extern 0 (respects_at keeps_db_inv (Worker.insertEntry _ _) _) =>
  apply keeps_insertEntry : keeps.
#[local] Hint Extern 0 (respects_at keeps_db_inv (Worker.removeEntry _ _) _) =>
  apply keeps_removeEntry : keeps.
#[local] Hint Extern 0 (respects_at keeps_db_inv (Worker.editEntry _ _ _) _) =>
  apply keeps_editEntry : keeps.

Lemma keeps_editEntries now data fields :
  respects keeps_db_inv (Worker.editEntries now data fields).
Proof.
  revert fields. induction data as [|e data IH]; intros [|f fields]; simpl;
    try (intros w; apply keeps_refl).
  keeps_steps. apply IH.
Qed.

#[local] Hint Extern 0 (respects_at keeps_db_inv (Worker.editEntries _ _ _) _) =>
  apply keeps_editEntries : keeps.

Lemma keeps_run now c : respects keeps_db_inv (run now c).
Proof.
  destruct c; simpl.
  - unfold Worker.insert. keeps_steps.
  - unfold Worker.import. keeps_steps.
  - unfold Worker.remove. keeps_steps.
  - unfold Worker.edit. keeps_steps.
  - unfold Worker.editCategory. keeps_steps.
  - unfold Worker.sync. keeps_step. keeps_step.
    destruct (Worker.classify_removed _ _) as [removedNew removedOld].
    keeps_steps.
  - unfold Worker.undo. keeps_steps.
  - apply same_db_keeps, same_db_getHistoryBefore.
Qed.

Lemma run_all_app cs1 cs2 w : run_all (cs1 ++ cs2) w = run_all cs2 (run_all cs1 w).
Proof. revert w. induction cs1 as [|[now c] cs1 IH]; intros w; simpl; auto. Qed.

(** Induction over the runs that reach a state. *)
Lemma reachable_ind (P : Worker → Prop) :
  P initial →
  (∀ w now c, reachable w → P w → P (state_of (run now c w))) →
  ∀ w, reachable w → P w.
Proof.
  intros Hinit Hstep w [cs ->].
  induction cs as [|[now c] cs IH] using rev_ind; [done|].
  rewrite run_all_app. simpl. apply Hstep; [by eexists|done].
Qed.

Lemma reachable_initial : reachable initial.
Proof. by exists []. Qed.
Lemma reachable_step w now c : reachable w → reachable (state_of (run now c w)).
Proof. intros [cs ->]. exists (cs ++ [(now, c)]). by rewrite run_all_app. Qed.

Lemma reachable_db_inv w : reachable w → db_inv (db w).
Proof.
  revert w. apply reachable_ind; [apply empty_db_inv|].
  intros w now c _ Hinv. by apply keeps_run.
Qed.

(** ** The derived-duration invariant (I1, I2) and the separation of live
    rows and tombstones (I3) *)

Lemma NoDup_all_equal_length {A} (l : list A) :
  NoDup l → (∀ x y, x ∈ l → y ∈ l → x = y) → (length l ≤ 1)%nat.
Proof.
  destruct l as [|a [|b l]]; simpl; [lia..|].
  intros [Hn _]%NoDup_cons Heq. destruct Hn.
  rewrite (Heq a b); [left|left|right; left].
Qed.

Lemma db_inv_NoDup d : db_inv d → NoDup (timelog d).
Proof. intros [Hst _ _ _ _]. by apply NoDup_fmap_1 in Hst. Qed.

Lemma open_row_is_last d r :
  db_inv d → r ∈ timelog d →
  r_duration r = Some (-1) ↔ ∀ r', r' ∈ timelog d → r_start r' ≤ r_start r.
Proof.
  intros Hinv Hr. rewrite (inv_duration d Hinv r Hr).
  unfold expected_duration. rewrite next_start_nxt.
  pose proof (nxt_spec (starts (timelog d)) (r_start r)) as Hn.
  destruct (nxt _ _) as [s|] eqn:Hnxt; simpl in *.
  - destruct Hn as ((r' & Hr' & <-)%elem_of_starts & Hlt & _). split.
    + intros [= ?]. lia.
    + intros Hmax. specialize (Hmax r' Hr'). lia.
  - split; [|done]. intros _ r' Hr'. apply Hn, elem_of_starts. eauto.
Qed.

Lemma db_inv_I1 d : db_inv d → I1 (timelog d).
Proof.
  intros Hinv.
  assert (∀ r r', r ∈ open_rows (timelog d) → r' ∈ timelog d →
                  r_start r' ≤ r_start r) as Hmax.
  { intros r r' [Hopen Hr]%list_elem_of_filter Hr'.
    by apply (open_row_is_last d r Hinv Hr). }
  assert (length (open_rows (timelog d)) ≤ 1)%nat as Hle.
  { apply NoDup_all_equal_length; [by apply NoDup_filter, db_inv_NoDup|].
    intros x y Hx Hy.
    pose proof Hx as [_ Hxt]%list_elem_of_filter.
    pose proof Hy as [_ Hyt]%list_elem_of_filter.
    apply (row_start_inj (timelog d)); [apply Hinv|done..|].
    pose proof (Hmax x y Hx Hyt). pose proof (Hmax y x Hy Hxt). lia. }
  split_and!; [done| |done].
  split.
  - intros Hlen Hnil. rewrite Hnil in Hlen. done.
  - intros Hne.
    pose proof (list_max_spec (starts (timelog d))) as Hm.
    destruct (list_max _) as [m|].
    + destruct Hm as [(r & Hr & <-)%elem_of_starts Hall].
      assert (r ∈ open_rows (timelog d)) as Hopen.
      { apply list_elem_of_filter. split; [|done].
        apply (open_row_is_last d r Hinv Hr).
        intros r' Hr'. apply Hall, elem_of_starts. eauto. }
      destruct (open_rows (timelog d)) as [|a [|b l]]; simpl in *;
        [by apply elem_of_nil in Hopen|done|lia].
    + destruct (timelog d); done.
Qed.

Lemma db_inv_I2 d : db_inv d → I2 (timelog d).
Proof.
  intros Hinv A B (HA & HB & Hlt & Hbetween).
  rewrite (inv_duration d Hinv A HA). f_equal.
  apply expected_duration_next, nxt_intro. simpl.
  split_and!; [apply elem_of_starts; eauto|done|].
  intros s' (C & HC & <-)%elem_of_starts Hlt'. specialize (Hbetween C HC). lia.
Qed.

Lemma db_inv_I3 d : db_inv d → I3 d.
Proof.
  intros Hinv u.
  assert (length (filter (λ r, r_uuid r = u) (timelog d)) ≤ 1)%nat as Hle.
  { apply NoDup_all_equal_length; [by apply NoDup_filter, db_inv_NoDup|].
    intros x y [Hx Hxt]%list_elem_of_filter [Hy Hyt]%list_elem_of_filter.
    apply (row_uuid_inj (timelog d)); [apply Hinv|done..|congruence]. }
  destruct (removed d !! u) as [m|] eqn:Hrm; [|lia].
  destruct (filter _ (timelog d)) as [|a l] eqn:Hf; simpl; [lia|].
  assert (a ∈ filter (λ r, r_uuid r = u) (timelog d)) as [Ha Hat]%list_elem_of_filter
    by (rewrite Hf; left).
  pose proof (inv_tombstone d Hinv a Hat) as Hnone. congruence.
Qed.

(** C1.  After every run of commands from the empty database, at most one
    live row has duration -1, exactly one iff the table is non-empty, that
    row has the maximum start, and every row that has a next row carries
    the distance to it as its duration. *)
Theorem C1_duration_invariant (cs : list (Z * Command)) :
  I1 (timelog (db (run_all cs initial))) ∧
  I2 (timelog (db (run_all cs initial))).
Proof.
  assert (db_inv (db (run_all cs initial))) as Hinv
    by (apply reachable_db_inv; by exists cs).
  split; [by apply db_inv_I1|by apply db_inv_I2].
Qed.

Lemma insert_into_timelog_clears_tombstone u start cat com mtime d d' :
  insert_into_timelog u start cat com mtime d = Some (d', 1) →
  removed d' !! u = None.
Proof.
  unfold insert_into_timelog. case_match; [by intros [= <-]|].
  case_match; [done|]. intros [= <-]. simpl. apply lookup_delete_eq.
Qed.

Lemma replace_into_removed_deletes_row u mtime d d' :
  replace_into_removed u mtime d = (d', 1) →
  removed d' !! u = Some mtime ∧ ∀ r, r ∈ timelog d' → r_uuid r ≠ u.
Proof.
  unfold replace_into_removed. case_match; [by intros [= <-]|].
  intros [= <-]. simpl. split; [apply lookup_insert_eq|].
  unfold delete_from_timelog. destruct (find _ _) as [old|] eqn:Hfind.
  - intros r' (r & Hr & Heq)%(elem_of_erase _ _ _ (delete_timelog_erase _ _)).
    rewrite <- (erase_uuid _ _ Heq). by apply list_elem_of_filter in Hr as [? _].
  - by apply find_uuid_None.
Qed.

(** C4.  After every run of commands each uuid is in at most one of the
    two tables; an insert that writes its row leaves no tombstone for the
    uuid, and a tombstone that is written leaves no live row for it. *)
Theorem C4_uuid_in_one_table :
  (∀ cs : list (Z * Command), I3 (db (run_all cs initial))) ∧
  (∀ u start cat com mtime d d',
     insert_into_timelog u start cat com mtime d = Some (d', 1) →
     removed d' !! u = None) ∧
  (∀ u mtime d d',
     replace_into_removed u mtime d = (d', 1) →
     ∀ r, r ∈ timelog d' → r_uuid r ≠ u).
Proof.
  split_and!.
  - intros cs. apply db_inv_I3, reachable_db_inv. by exists cs.
  - apply insert_into_timelog_clears_tombstone.
  - intros u mtime d d' H. by apply (replace_into_removed_deletes_row u mtime d d').
Qed.
Lemma C4_uuid_in_one_table_witness :
  insert_into_timelog 1 100 "a" "" 7 (mkDb [] {[1%N := 5]})
    = Some (mkDb [mkRow 1 100 "a" "" (Some (-1)) 7] ∅, 1) ∧
  removed (mkDb [mkRow 1 100 "a" "" (Some (-1)) 7] ∅) !! 1%N = None.
Proof.
  assert (insert_into_timelog 1 100 "a" "" 7 (mkDb [] {[1%N := 5]})
          = Some (mkDb [mkRow 1 100 "a" "" (Some (-1)) 7] ∅, 1)) as H
    by (vm_compute; reflexivity).
  split; [exact H|].
  exact (proj1 (proj2 C4_uuid_in_one_table) _ _ _ _ _ _ _ H).
Defined.
